(** * Task API: the auto-completion worker, its store and its configuration

    A shallow embedding of the Go packages [models], [database],
    [repositories], [config], [services] and [worker] of the task API, and
    of what they use of [time] and [strconv], followed by the properties of
    the auto-completion worker.

    Conventions of the embedding.
    - Go strings are [string]; Go's [int] (64 bit) and [time.Time] are [Z].
      Instants and durations are counted in nanoseconds, as [time.Duration]
      does; the database clock [NOW()] is the same clock.
    - A Go result [(v, err)] is a pair whose second component is
      [option error] ([None] is [nil]); a pointer result that may be [nil]
      is an [option].
    - The [tasks] table is the list of its rows; [SELECT .. WHERE] is
      [filter], [UPDATE .. WHERE] is [map] and [DELETE .. WHERE] is [filter]
      on the complement. A connection that fails makes every statement
      return its error and change nothing.
    - Goroutines are program counters of one global state; a [select] is the
      list of its cases, and a step of a goroutine blocked at a [select]
      names the ready case it takes. *)

From stdpp Require Import base gmap strings list.
From Stdlib Require Import ZArith Ascii String Lia Sorted.

Local Open Scope string_scope.
Local Open Scope Z_scope.

(** ** Package [time]: the duration constants the worker uses *)

Module time.
Definition Duration := Z.
Definition Nanosecond : Duration := 1.
Definition Microsecond : Duration := 1000 * Nanosecond.
Definition Millisecond : Duration := 1000 * Microsecond.
Definition Second : Duration := 1000 * Millisecond.
Definition Minute : Duration := 60 * Second.
End time.

(** Go's [error] values are identified by their message. *)
Definition error := string.

(** ** Package [models] *)

Module models.
Record Task := mkTask {
  ID : string;
  UserID : string;
  Title : string;
  Description : string;
  Status : string;          (* pending, in_progress, completed *)
  CreatedAt : Z;
  UpdatedAt : Z
}.

#[global] Instance Task_eq_dec : EqDecision Task.
Proof. solve_decision. Defined.

(** [&models.Task{}]: the zero value. *)
Definition zero : Task := mkTask "" "" "" "" "" 0 0.
End models.

(** ** Package [database] *)

Module database.
(** The connection: the rows of table [tasks] and, when the connection is
    broken, the error every statement returns. *)
Record DB := mkDB {
  tasks : list models.Task;
  conn_err : option error
}.

Definition with_tasks (db : DB) (ts : list models.Task) : DB :=
  mkDB ts (conn_err db).
End database.

(** ** Package [repositories] *)

Module repositories.
Import models database.

(** [status IN ('pending', 'in_progress')] *)
Definition status_open (s : string) : bool :=
  String.eqb s "pending" || String.eqb s "in_progress".

(** [INSERT INTO tasks (user_id, title, description, status)
     VALUES ($1, $2, $3, $4) RETURNING id, created_at, updated_at]
    with [$4] the literal ["pending"]; [id] is the identifier the
    database generates, [now] its clock. *)
Definition CreateTask (db : DB) (now : Z) (id : string) (task : Task)
  : DB * option Task * option error :=
  match conn_err db with
  | Some e => (db, None, Some e)
  | None =>
      let row := mkTask id (UserID task) (Title task) (Description task)
                        "pending" now now in
      (with_tasks db (tasks db ++ [row]),
       Some (mkTask id (UserID task) (Title task) (Description task)
                    (Status task) now now),
       None)
  end.

(** [SELECT .. FROM tasks WHERE id = $1]; [sql.ErrNoRows] becomes
    [(nil, "task not found")], any other error is returned together with
    the pointer to the task that was not filled in. *)
Definition GetTaskByID (db : DB) (taskID : string)
  : option Task * option error :=
  match conn_err db with
  | Some e => (Some zero, Some e)
  | None =>
      match List.find (fun t => String.eqb (ID t) taskID) (tasks db) with
      | Some t => (Some t, None)
      | None => (None, Some "task not found")
      end
  end.

(** [UPDATE tasks SET title = $1, description = $2, status = $3,
     updated_at = NOW() WHERE id = $4 RETURNING updated_at] *)
Definition UpdateTask (db : DB) (now : Z) (task : Task)
  : DB * option error :=
  match conn_err db with
  | Some e => (db, Some e)
  | None =>
      if existsb (fun t => String.eqb (ID t) (ID task)) (tasks db) then
        (with_tasks db
           (List.map (fun t =>
              if String.eqb (ID t) (ID task)
              then mkTask (ID t) (UserID t) (Title task) (Description task)
                          (Status task) (CreatedAt t) now
              else t) (tasks db)),
         None)
      else (db, Some "sql: no rows in result set")
  end.

(** [DELETE FROM tasks WHERE id = $1] *)
Definition DeleteTask (db : DB) (taskID : string) : DB * option error :=
  match conn_err db with
  | Some e => (db, Some e)
  | None =>
      (with_tasks db
         (List.filter (fun t => negb (String.eqb (ID t) taskID)) (tasks db)),
       None)
  end.

(** The [WHERE] clause of the eligibility query:
    [status IN ('pending', 'in_progress')
     AND created_at < NOW() - INTERVAL '1 minute' * $1]. *)
Definition eligible (now minutes : Z) (t : Task) : bool :=
  status_open (Status t) && (CreatedAt t <? now - time.Minute * minutes).

Definition GetTasksForAutoCompletion (db : DB) (now : Z) (minutes : Z)
  : list Task * option error :=
  match conn_err db with
  | Some e => ([], Some e)
  | None => (List.filter (eligible now minutes) (tasks db), None)
  end.

(** [UPDATE tasks SET status = 'completed', updated_at = NOW()
     WHERE id = $1 AND status IN ('pending', 'in_progress')];
    the number of rows affected is thrown away, only the error of [Exec]
    is returned. *)
Definition complete_row (now : Z) (taskID : string) (t : Task) : Task :=
  if String.eqb (ID t) taskID && status_open (Status t)
  then mkTask (ID t) (UserID t) (Title t) (Description t)
              "completed" (CreatedAt t) now
  else t.

Definition AutoCompleteTask (db : DB) (now : Z) (taskID : string)
  : DB * option error :=
  match conn_err db with
  | Some e => (db, Some e)
  | None => (with_tasks db (List.map (complete_row now taskID) (tasks db)), None)
  end.
(** [ORDER BY created_at DESC]: the rows by falling [created_at]. The
    database leaves the order of rows with equal [created_at] open; here
    they stay in table order. *)
Fixpoint insert_desc (t : Task) (l : list Task) : list Task :=
  match l with
  | [] => [t]
  | x :: l' =>
      if CreatedAt x <=? CreatedAt t then t :: l else x :: insert_desc t l'
  end.

Definition order_by_created_at_desc (l : list Task) : list Task :=
  List.fold_right insert_desc [] l.

(** [SELECT .. FROM tasks WHERE user_id = $1 ORDER BY created_at DESC] *)
Definition GetUserTasks (db : DB) (userID : string)
  : list Task * option error :=
  match conn_err db with
  | Some e => ([], Some e)
  | None =>
      (order_by_created_at_desc
         (List.filter (fun t => String.eqb (UserID t) userID) (tasks db)),
       None)
  end.

(** [SELECT .. FROM tasks ORDER BY created_at DESC] *)
Definition GetAllTasks (db : DB) : list Task * option error :=
  match conn_err db with
  | Some e => ([], Some e)
  | None => (order_by_created_at_desc (tasks db), None)
  end.
End repositories.

(** ** Package [strconv]: [Atoi], as the Go library defines it for a 64-bit [int] *)

Module strconv.
Inductive NumError := ErrSyntax | ErrRange.

Definition byte_of (c : ascii) : Z := Z.of_N (N_of_ascii c).

(** ['0' <= c && c <= '9'], with [d = c - '0']. *)
Definition digit (c : ascii) : option Z :=
  let n := byte_of c in
  if (48 <=? n) && (n <=? 57) then Some (n - 48) else None.

Definition maxUint64 : Z := 2 ^ 64 - 1.

(** The loop of [ParseUint(s, 10, 64)] from the accumulator [n]: an
    invalid byte is a syntax error with value 0; an overflow returns at
    once, with [maxVal] and a range error, whatever bytes follow. *)
Fixpoint parse_digits (s : string) (n : Z) : Z * option NumError :=
  match s with
  | EmptyString => (n, None)
  | String c rest =>
      match digit c with
      | None => (0, Some ErrSyntax)
      | Some d =>
          if maxUint64 / 10 + 1 <=? n then (maxUint64, Some ErrRange)
          else
            let n1 := n * 10 + d in
            if maxUint64 <? n1 then (maxUint64, Some ErrRange)
            else parse_digits rest n1
      end
  end.

Definition ParseUint (s : string) : Z * option NumError :=
  match s with
  | EmptyString => (0, Some ErrSyntax)
  | _ => parse_digits s 0
  end.

(** [ParseInt(s, 10, 0)] *)
Definition ParseInt (s : string) : Z * option NumError :=
  match s with
  | EmptyString => (0, Some ErrSyntax)
  | String c rest =>
      let neg := Ascii.eqb c "-" in
      let body := if Ascii.eqb c "+" || neg then rest else s in
      match ParseUint body with
      | (_, Some ErrSyntax) => (0, Some ErrSyntax)
      | (un, _) =>
          let cutoff := 2 ^ 63 in
          if negb neg && (cutoff <=? un) then (cutoff - 1, Some ErrRange)
          else if neg && (cutoff <? un) then (- cutoff, Some ErrRange)
          else (if neg then - un else un, None)
      end
  end.

(** The fast path of [Atoi] for inputs of 1 to 18 bytes. *)
Fixpoint fast_digits (s : string) (n : Z) : option Z :=
  match s with
  | EmptyString => Some n
  | String c rest =>
      match digit c with
      | None => None
      | Some d => fast_digits rest (n * 10 + d)
      end
  end.

Definition Atoi (s : string) : Z * option NumError :=
  let sLen := String.length s in
  if (0 <? sLen)%nat && (sLen <? 19)%nat then
    match s with
    | EmptyString => (0, Some ErrSyntax)
    | String c rest =>
        let signed := Ascii.eqb c "-" || Ascii.eqb c "+" in
        let body := if signed then rest else s in
        if signed && (String.length body <? 1)%nat then (0, Some ErrSyntax)
        else
          match fast_digits body 0 with
          | None => (0, Some ErrSyntax)
          | Some n => (if Ascii.eqb c "-" then - n else n, None)
          end
    end
  else ParseInt s.
End strconv.

(** ** Package [config] *)

Module config.
Record Config := mkConfig {
  DBHost : string;
  DBPort : string;
  DBUser : string;
  DBPassword : string;
  DBName : string;
  JWTSecret : string;
  JWTExpiryHours : Z;
  AutoCompleteMinutes : Z;
  ServerPort : string
}.

(** The process environment; [os.Getenv] yields [""] for an unset key. *)
Definition Getenv (env : gmap string string) (key : string) : string :=
  default "" (env !! key).

Definition getEnv (env : gmap string string) (key defaultValue : string)
  : string :=
  let value := Getenv env key in
  if String.eqb value "" then defaultValue else value.

Definition getEnvInt (env : gmap string string) (key : string)
    (defaultValue : Z) : Z :=
  let value := Getenv env key in
  if String.eqb value "" then defaultValue
  else fst (strconv.Atoi value).

Definition LoadConfig (env : gmap string string) : Config :=
  mkConfig
    (getEnv env "DB_HOST" "localhost")
    (getEnv env "DB_PORT" "5432")
    (getEnv env "DB_USER" "postgres")
    (getEnv env "DB_PASSWORD" "postgres")
    (getEnv env "DB_NAME" "taskdb")
    (getEnv env "JWT_SECRET" "secret-key")
    (getEnvInt env "JWT_EXPIRY_HOURS" 24)
    (getEnvInt env "AUTO_COMPLETE_MINUTES" 30)
    (getEnv env "SERVER_PORT" "8081").
End config.

(** ** Package [services]: the task operations the HTTP handlers call *)

Module services.
Import models database.

Record CreateTaskRequest := mkCreateTaskRequest {
  ctTitle : string;
  ctDescription : string
}.

Record UpdateTaskRequest := mkUpdateTaskRequest {
  utTitle : string;
  utDescription : string;
  utStatus : string
}.

(** [map[string]bool{"pending": true, "in_progress": true, "completed": true}] *)
Definition validStatuses : gmap string bool :=
  {[ "pending" := true; "in_progress" := true; "completed" := true ]}.

(** [validStatuses[s]], false for a missing key. *)
Definition is_valid_status (s : string) : bool :=
  default false (validStatuses !! s).

Definition CreateTask (db : DB) (now : Z) (id : string) (userID : string)
    (req : CreateTaskRequest) : DB * option error :=
  if String.eqb (ctTitle req) "" then (db, Some "title is required")
  else
    let task := mkTask "" userID (ctTitle req) (ctDescription req) "pending" 0 0 in
    match repositories.CreateTask db now id task with
    | (db', _, err) => (db', err)
    end.

Definition UpdateTask (db : DB) (now : Z) (userID taskID : string)
    (req : UpdateTaskRequest) (isAdmin : bool) : DB * option error :=
  match repositories.GetTaskByID db taskID with
  | (_, Some err) => (db, Some err)
  | (None, None) => (db, Some "nil task")   (* not a result of GetTaskByID *)
  | (Some task, None) =>
      if negb isAdmin && negb (String.eqb (UserID task) userID)
      then (db, Some "unauthorized to update this task")
      else if negb (String.eqb (utStatus req) "") && negb (is_valid_status (utStatus req))
      then (db, Some "invalid status")
      else
        let title := if String.eqb (utTitle req) "" then Title task else utTitle req in
        let description :=
          if String.eqb (utDescription req) "" then Description task
          else utDescription req in
        let status := if String.eqb (utStatus req) "" then Status task else utStatus req in
        repositories.UpdateTask db now
          (mkTask (ID task) (UserID task) title description status
                  (CreatedAt task) (UpdatedAt task))
  end.

Definition DeleteTask (db : DB) (userID taskID : string) (isAdmin : bool)
  : DB * option error :=
  match repositories.GetTaskByID db taskID with
  | (_, Some err) => (db, Some err)
  | (None, None) => (db, Some "nil task")   (* not a result of GetTaskByID *)
  | (Some task, None) =>
      if negb isAdmin && negb (String.eqb (UserID task) userID)
      then (db, Some "unauthorized to delete this task")
      else repositories.DeleteTask db taskID
  end.
(** [task.UserID = ""] *)
Definition hide_owner (t : Task) : Task :=
  mkTask (ID t) "" (Title t) (Description t) (Status t) (CreatedAt t) (UpdatedAt t).

Definition GetTask (db : DB) (taskID : string) : option Task * option error :=
  match repositories.GetTaskByID db taskID with
  | (_, Some err) => (None, Some err)
  | (None, None) => (None, Some "nil task")   (* not a result of GetTaskByID *)
  | (Some task, None) => (Some (hide_owner task), None)
  end.

Definition GetUserTasks (db : DB) (userID : string) : list Task * option error :=
  match repositories.GetUserTasks db userID with
  | (_, Some err) => ([], Some err)
  | (tasks, None) => (List.map hide_owner tasks, None)
  end.

Definition GetAllTasks (db : DB) : list Task * option error :=
  match repositories.GetAllTasks db with
  | (_, Some err) => ([], Some err)
  | (tasks, None) => (List.map hide_owner tasks, None)
  end.
End services.

(** ** Package [middleware]: the claims of a request and the check of its
    [Authorization] header *)

Module middleware.

Definition BearerScheme : string := "Bearer".

Record Claims := mkClaims {
  UserID : string;
  Email : string;
  Username : string;
  Role : string
}.

(** [strings.Split(s, " ")] *)
Fixpoint split_space (s : string) : list string :=
  match s with
  | EmptyString => [""]
  | String c rest =>
      if Ascii.eqb c " " then "" :: split_space rest
      else match split_space rest with
           | [] => [String c ""]
           | part :: parts => String c part :: parts
           end
  end.

(** What the middleware does with a request: answer it with a status and
    an error message, or hand it on with the claims of its token. *)
Inductive verdict :=
| Reject (status : Z) (message : string)
| Next (claims : Claims).

(** [AuthMiddleware], given what [ValidateToken] makes of a token string
    under the configured secret ([None] for an error). *)
Definition AuthMiddleware (ValidateToken : string → option Claims)
    (authHeader : string) : verdict :=
  if String.eqb authHeader "" then Reject 401 "Missing authorization header"
  else
    let parts := split_space authHeader in
    if negb (Nat.eqb (List.length parts) 2)
       || negb (String.eqb (List.hd "" parts) BearerScheme)
    then Reject 401 "Invalid authorization header format"
    else
      match ValidateToken (List.nth 1 parts "") with
      | None => Reject 401 "Invalid token"
      | Some claims => Next claims
      end.
End middleware.

(** ** Package [handlers]: the task handlers, from the claims of the request
    to the status and body of the response *)

Module handlers.
Import models database.

Inductive body :=
| ErrorResponse (message : string)
| TaskBody (task : Task)
| TasksBody (tasks : list Task)
| MessageBody (message : string).

(** [GetUserFromContext] yields [None] for a request without claims. *)
Definition GetTask (claims : option middleware.Claims) (taskID : string) (db : DB)
  : Z * body :=
  match claims with
  | None => (401, ErrorResponse "Unauthorized")
  | Some claims =>
      match services.GetTask db taskID with
      | (Some task, None) =>
          if negb (String.eqb (middleware.Role claims) "admin")
             && negb (String.eqb (UserID task) "")
             && negb (String.eqb (UserID task) (middleware.UserID claims))
          then (403, ErrorResponse "Unauthorized to access this task")
          else (200, TaskBody task)
      | _ => (404, ErrorResponse "Task not found")
      end
  end.

Definition GetTasks (claims : option middleware.Claims) (db : DB) : Z * body :=
  match claims with
  | None => (401, ErrorResponse "Unauthorized")
  | Some claims =>
      match (if String.eqb (middleware.Role claims) "admin"
             then services.GetAllTasks db
             else services.GetUserTasks db (middleware.UserID claims)) with
      | (_, Some _) => (500, ErrorResponse "Error retrieving tasks")
      | (tasks, None) => (200, TasksBody tasks)
      end
  end.

Definition DeleteTask (claims : option middleware.Claims) (taskID : string)
    (db : DB) : DB * (Z * body) :=
  match claims with
  | None => (db, (401, ErrorResponse "Unauthorized"))
  | Some claims =>
      match services.DeleteTask db (middleware.UserID claims) taskID
              (String.eqb (middleware.Role claims) "admin") with
      | (db', Some err) =>
          if String.eqb err "unauthorized to delete this task"
          then (db', (403, ErrorResponse err))
          else (db', (404, ErrorResponse err))
      | (db', None) => (db', (200, MessageBody "Task deleted successfully"))
      end
  end.
End handlers.

(** ** Package [worker] *)

Module worker.
Import models database repositories config.

(** [ErrChannelFull.Error()] *)
Definition ErrChannelFull : error := "task queue is full".

(** The lines the worker writes with [log.Printf] and [log.Println]. *)
Inductive LogLine :=
| LogStarting                                  (* Starting task auto-completion worker... *)
| LogStarted                                   (* Task worker started successfully *)
| LogStopping                                  (* Stopping task worker... *)
| LogStopped                                   (* Task worker stopped *)
| LogFetchError (e : error)                    (* Error fetching tasks for auto-completion: e *)
| LogQueued (id : string)                      (* Queued task id for auto-completion *)
| LogNotFound (id : string) (e : error)        (* Task id not found: e *)
| LogAlreadyCompleted (id : string)            (* Task id is already completed, skipping auto-completion *)
| LogCompleteError (id : string) (e : error)   (* Error auto-completing task id: e *)
| LogAutoCompleted (id : string)               (* Task id auto-completed successfully *)
| LogSubmitted (id : string).                  (* Manually submitted task id for processing *)

(** The statements the worker sends to the store, in order. *)
Inductive store_call :=
| QueryEligible (minutes : Z)     (* repositories.GetTasksForAutoCompletion *)
| QueryTask (id : string)         (* repositories.GetTaskByID *)
| ExecComplete (id : string).     (* repositories.AutoCompleteTask *)

(** [TaskWorker]. [taskChannel] is the buffer of the channel, oldest
    first, with its closed flag beside it; [stopChannel] carries no value,
    so it is its closed flag; [wg] is the counter of the wait group. The
    mutex [mu] guards sections that are single steps below. *)
Record TaskWorker := mkTaskWorker {
  db : DB;
  cfg : Config;
  taskChannel : list string;
  taskChannelClosed : bool;
  stopChannel : bool;
  wg : nat;
  processedTasks : gmap string bool
}.

(** [make(chan string, 100)] *)
Definition taskChannelCap : nat := 100.

Definition NewTaskWorker (d : DB) (c : Config) : TaskWorker :=
  mkTaskWorker d c [] false false 0 ∅.

(** *** [autoCompleteTask], in its two store accesses *)

(** The first half of [autoCompleteTask], up to the status check. What the
    re-fetch decides: skip with a log line, go on to the update, or
    dereference a nil task. *)
Inductive fetched := FetchSkip (l : LogLine) | FetchGo | FetchPanic.

Definition autoCompleteTask_fetch (d : DB) (taskID : string) : fetched :=
  match GetTaskByID d taskID with
  | (_, Some e) => FetchSkip (LogNotFound taskID e)
  | (None, None) => FetchPanic
  | (Some task, None) =>
      if String.eqb (Status task) "completed"
      then FetchSkip (LogAlreadyCompleted taskID)
      else FetchGo
  end.

(** The second half: the conditional update and its log line. *)
Definition autoCompleteTask_update (d : DB) (now : Z) (taskID : string)
  : DB * LogLine :=
  match AutoCompleteTask d now taskID with
  | (d', Some e) => (d', LogCompleteError taskID e)
  | (d', None) => (d', LogAutoCompleted taskID)
  end.

Record outcome := mkOutcome {
  out_db : DB;
  out_logs : list LogLine;
  out_calls : list store_call;
  out_panic : bool
}.

(** [autoCompleteTask] run without interference between its two store
    accesses. *)
Definition autoCompleteTask (d : DB) (now : Z) (taskID : string) : outcome :=
  match autoCompleteTask_fetch d taskID with
  | FetchSkip l => mkOutcome d [l] [QueryTask taskID] false
  | FetchPanic => mkOutcome d [] [QueryTask taskID] true
  | FetchGo =>
      let '(d', l) := autoCompleteTask_update d now taskID in
      mkOutcome d' [l] [QueryTask taskID; ExecComplete taskID] false
  end.

(** *** The [select] statements *)

Inductive select_case :=
| CaseStop                   (* case <-w.stopChannel *)
| CaseTick                   (* case <-ticker.C *)
| CaseRecv                   (* case taskID := <-w.taskChannel *)
| CaseSend (id : string)     (* case w.taskChannel <- id *)
| CaseAfter (d : Z).         (* case <-time.After(d) *)

#[global] Instance select_case_eq_dec : EqDecision select_case.
Proof. solve_decision. Defined.

Definition select_checkAndQueueTasks : list select_case :=
  [CaseStop; CaseTick].
Definition select_findAndQueueTasks (id : string) : list select_case :=
  [CaseSend id; CaseAfter (100 * time.Millisecond)].
Definition select_processTasksFromChannel : list select_case :=
  [CaseStop; CaseRecv].
Definition select_SubmitTask (id : string) : list select_case :=
  [CaseSend id; CaseAfter (5 * time.Second)].

(** *** The running system *)

Inductive scanner_pc :=
| SSelect                                  (* at the select of checkAndQueueTasks *)
| SLoop (rest : list Task)                 (* in findAndQueueTasks, at the head of the range loop *)
| SSend (id : string) (entered : Z) (rest : list Task)
                                           (* marked [id], at the select that sends it *)
| SDone.                                   (* returned *)

Inductive processor_pc :=
| PSelect                                  (* at the select of processTasksFromChannel *)
| PExec (id : string)                      (* in autoCompleteTask, before the update *)
| PDone.                                   (* returned *)

Inductive stopper_pc := StopNotCalled | StopWait | StopReturned.

Record State := mkState {
  w : TaskWorker;
  now : Z;                                 (* the clock *)
  tickerC : bool;                          (* a tick waits in ticker.C *)
  nextTick : Z;                            (* when the ticker fires next *)
  scanner : scanner_pc;
  processor : processor_pc;
  stopper : stopper_pc;
  submits : list (string * Z);             (* callers blocked in SubmitTask: id, time of entry *)
  returns : list (string * option error);  (* what SubmitTask returned, per call *)
  logs : list LogLine;
  calls : list store_call;
  panicked : bool
}.

Definition set_w (f : TaskWorker → TaskWorker) (s : State) : State :=
  mkState (f (w s)) (now s) (tickerC s) (nextTick s) (scanner s) (processor s)
          (stopper s) (submits s) (returns s) (logs s) (calls s) (panicked s).
Definition set_db (d : DB) : State → State :=
  set_w (fun x => mkTaskWorker d (cfg x) (taskChannel x) (taskChannelClosed x)
                               (stopChannel x) (wg x) (processedTasks x)).
Definition set_taskChannel (q : list string) : State → State :=
  set_w (fun x => mkTaskWorker (db x) (cfg x) q (taskChannelClosed x)
                               (stopChannel x) (wg x) (processedTasks x)).
Definition close_taskChannel : State → State :=
  set_w (fun x => mkTaskWorker (db x) (cfg x) (taskChannel x) true
                               (stopChannel x) (wg x) (processedTasks x)).
Definition close_stopChannel : State → State :=
  set_w (fun x => mkTaskWorker (db x) (cfg x) (taskChannel x) (taskChannelClosed x)
                               true (wg x) (processedTasks x)).
Definition wg_Done : State → State :=
  set_w (fun x => mkTaskWorker (db x) (cfg x) (taskChannel x) (taskChannelClosed x)
                               (stopChannel x) (Nat.pred (wg x)) (processedTasks x)).
Definition set_processedTasks (m : gmap string bool) : State → State :=
  set_w (fun x => mkTaskWorker (db x) (cfg x) (taskChannel x) (taskChannelClosed x)
                               (stopChannel x) (wg x) m).
Definition set_now (t : Z) (s : State) : State :=
  mkState (w s) t (tickerC s) (nextTick s) (scanner s) (processor s)
          (stopper s) (submits s) (returns s) (logs s) (calls s) (panicked s).
Definition set_ticker (b : bool) (t : Z) (s : State) : State :=
  mkState (w s) (now s) b t (scanner s) (processor s)
          (stopper s) (submits s) (returns s) (logs s) (calls s) (panicked s).
Definition set_scanner (pc : scanner_pc) (s : State) : State :=
  mkState (w s) (now s) (tickerC s) (nextTick s) pc (processor s)
          (stopper s) (submits s) (returns s) (logs s) (calls s) (panicked s).
Definition set_processor (pc : processor_pc) (s : State) : State :=
  mkState (w s) (now s) (tickerC s) (nextTick s) (scanner s) pc
          (stopper s) (submits s) (returns s) (logs s) (calls s) (panicked s).
Definition set_stopper (pc : stopper_pc) (s : State) : State :=
  mkState (w s) (now s) (tickerC s) (nextTick s) (scanner s) (processor s)
          pc (submits s) (returns s) (logs s) (calls s) (panicked s).
Definition set_submits (l : list (string * Z)) (s : State) : State :=
  mkState (w s) (now s) (tickerC s) (nextTick s) (scanner s) (processor s)
          (stopper s) l (returns s) (logs s) (calls s) (panicked s).
Definition add_return (r : string * option error) (s : State) : State :=
  mkState (w s) (now s) (tickerC s) (nextTick s) (scanner s) (processor s)
          (stopper s) (submits s) (returns s ++ [r]) (logs s) (calls s) (panicked s).
Definition add_log (l : LogLine) (s : State) : State :=
  mkState (w s) (now s) (tickerC s) (nextTick s) (scanner s) (processor s)
          (stopper s) (submits s) (returns s) (logs s ++ [l]) (calls s) (panicked s).
Definition add_call (c : store_call) (s : State) : State :=
  mkState (w s) (now s) (tickerC s) (nextTick s) (scanner s) (processor s)
          (stopper s) (submits s) (returns s) (logs s) (calls s ++ [c]) (panicked s).
Definition panic (s : State) : State :=
  mkState (w s) (now s) (tickerC s) (nextTick s) (scanner s) (processor s)
          (stopper s) (submits s) (returns s) (logs s) (calls s) true.

(** [Start]: both goroutines are registered with the wait group and run
    up to their first select; the scanner's ticker is armed. *)
Definition Start (x : TaskWorker) (now0 : Z) : State :=
  mkState (mkTaskWorker (db x) (cfg x) (taskChannel x) (taskChannelClosed x)
                        (stopChannel x) (wg x + 2) (processedTasks x))
          now0 false (now0 + time.Minute) SSelect PSelect StopNotCalled
          [] [] [LogStarting; LogStarted] [] false.

Definition initial (d : DB) (c : Config) (now0 : Z) : State :=
  Start (NewTaskWorker d c) now0.

(** When a case of a select can proceed. A receive on a closed channel
    proceeds, and so does a send on one (it panics); a send on an open
    channel needs room in the buffer; a timer case needs its duration to
    have passed since the select was entered. *)
Definition ready (s : State) (entered : Z) (c : select_case) : bool :=
  match c with
  | CaseStop => stopChannel (w s)
  | CaseTick => tickerC s
  | CaseRecv =>
      negb (Nat.eqb (List.length (taskChannel (w s))) 0) || taskChannelClosed (w s)
  | CaseSend _ =>
      (List.length (taskChannel (w s)) <? taskChannelCap)%nat || taskChannelClosed (w s)
  | CaseAfter d => entered + d <=? now s
  end.

(** The select [cases], entered at [entered], may take case [c]. *)
Definition fires (s : State) (entered : Z) (cases : list select_case)
    (c : select_case) : bool :=
  bool_decide (c ∈ cases) && ready s entered c.

(** The first half of [findAndQueueTasks]: the eligibility query. *)
Definition findAndQueueTasks_query (s : State) : State :=
  let s1 := add_call (QueryEligible (AutoCompleteMinutes (cfg (w s)))) s in
  match GetTasksForAutoCompletion (db (w s)) (now s)
                                  (AutoCompleteMinutes (cfg (w s))) with
  | (_, Some e) => add_log (LogFetchError e) s1
  | (tasks, None) => set_scanner (SLoop tasks) s1
  end.

Definition scanner_step (c : option select_case) (s : State) : option State :=
  match scanner s, c with
  | SSelect, Some c =>
      if fires s 0 select_checkAndQueueTasks c then
        match c with
        | CaseStop => Some (set_scanner SDone (wg_Done s))
        | CaseTick => Some (findAndQueueTasks_query (set_ticker false (nextTick s) s))
        | _ => None
        end
      else None
  | SLoop [], None => Some (set_scanner SSelect s)
  | SLoop (task :: rest), None =>
      match processedTasks (w s) !! ID task with
      | Some _ => Some (set_scanner (SLoop rest) s)
      | None =>
          Some (set_scanner (SSend (ID task) (now s) rest)
                  (set_processedTasks (<[ID task := true]> (processedTasks (w s))) s))
      end
  | SSend id entered rest, Some c =>
      if fires s entered (select_findAndQueueTasks id) c then
        match c with
        | CaseSend _ =>
            if taskChannelClosed (w s) then Some (panic s)
            else Some (set_scanner (SLoop rest)
                         (add_log (LogQueued id)
                            (set_taskChannel (taskChannel (w s) ++ [id]) s)))
        | CaseAfter _ =>
            Some (set_scanner (SLoop rest)
                    (set_processedTasks (delete id (processedTasks (w s))) s))
        | _ => None
        end
      else None
  | _, _ => None
  end.

(** The receive of the processor, followed by the re-fetch of
    [autoCompleteTask]; a closed, empty channel yields the zero value. *)
Definition processor_recv (s : State) : State :=
  let taskID := hd "" (taskChannel (w s)) in
  let s1 := add_call (QueryTask taskID)
              (set_taskChannel (tl (taskChannel (w s))) s) in
  match autoCompleteTask_fetch (db (w s)) taskID with
  | FetchSkip l => add_log l s1
  | FetchPanic => panic s1
  | FetchGo => set_processor (PExec taskID) s1
  end.

Definition processor_step (c : option select_case) (s : State) : option State :=
  match processor s, c with
  | PSelect, Some c =>
      if fires s 0 select_processTasksFromChannel c then
        match c with
        | CaseStop => Some (set_processor PDone (wg_Done s))
        | CaseRecv => Some (processor_recv s)
        | _ => None
        end
      else None
  | PExec taskID, None =>
      let '(d', l) := autoCompleteTask_update (db (w s)) (now s) taskID in
      Some (set_processor PSelect
              (add_log l (add_call (ExecComplete taskID) (set_db d' s))))
  | _, _ => None
  end.

(** [Stop], up to [w.wg.Wait()], and from there on. *)
Definition Stop_signal (s : State) : option State :=
  match stopper s with
  | StopNotCalled =>
      Some (set_stopper StopWait (close_stopChannel (add_log LogStopping s)))
  | _ => None
  end.

Definition Stop_return (s : State) : option State :=
  match stopper s, wg (w s) with
  | StopWait, O =>
      Some (set_stopper StopReturned (add_log LogStopped (close_taskChannel s)))
  | _, _ => None
  end.

(** [SubmitTask]: the call enters its select at the current time; the
    [k]-th blocked call leaves through case [c]. *)
Definition SubmitTask_enter (taskID : string) (s : State) : State :=
  set_submits (submits s ++ [(taskID, now s)]) s.

Definition SubmitTask_leave (k : nat) (c : select_case) (s : State)
  : option State :=
  match submits s !! k with
  | None => None
  | Some (taskID, entered) =>
      if fires s entered (select_SubmitTask taskID) c then
        let s1 := set_submits (List.firstn k (submits s) ++ List.skipn (S k) (submits s)) s in
        match c with
        | CaseSend _ =>
            if taskChannelClosed (w s) then Some (panic s1)
            else Some (add_return (taskID, None)
                         (add_log (LogSubmitted taskID)
                            (set_taskChannel (taskChannel (w s) ++ [taskID]) s1)))
        | CaseAfter _ => Some (add_return (taskID, Some ErrChannelFull) s1)
        | _ => None
        end
      else None
  end.

(** What the rest of the program does to the store while the worker runs:
    the task services behind the HTTP handlers, and the connection going
    down or coming back. [id] is the identifier the database generates for
    a new row; it is fresh. *)
Inductive env_op :=
| EnvCreate (id userID : string) (req : services.CreateTaskRequest)
| EnvUpdate (userID taskID : string) (req : services.UpdateTaskRequest) (isAdmin : bool)
| EnvDelete (userID taskID : string) (isAdmin : bool)
| EnvConn (e : option error).

Definition env_step (op : env_op) (s : State) : option State :=
  match op with
  | EnvCreate id userID req =>
      if existsb (fun r => String.eqb (ID r) id) (tasks (db (w s))) then None
      else Some (set_db (fst (services.CreateTask (db (w s)) (now s) id userID req)) s)
  | EnvUpdate userID taskID req isAdmin =>
      Some (set_db (fst (services.UpdateTask (db (w s)) (now s) userID taskID req isAdmin)) s)
  | EnvDelete userID taskID isAdmin =>
      Some (set_db (fst (services.DeleteTask (db (w s)) userID taskID isAdmin)) s)
  | EnvConn e => Some (set_db (mkDB (tasks (db (w s))) e) s)
  end.

Inductive label :=
| LAdvance (d : Z)                         (* time passes *)
| LTicker                                  (* the ticker fires *)
| LScanner (c : option select_case)        (* the scanner takes a case, or moves on *)
| LProcessor (c : option select_case)      (* the processor takes a case, or moves on *)
| LStop                                    (* Stop is called *)
| LStopReturn                              (* Stop returns *)
| LSubmit (taskID : string)                (* SubmitTask is called *)
| LSubmitter (k : nat) (c : select_case)   (* a blocked SubmitTask takes a case *)
| LEnv (op : env_op).

(** One step of the system; [None] when the step is not enabled. A
    program that panicked has stopped. *)
Definition step (l : label) (s : State) : option State :=
  if panicked s then None else
  match l with
  | LAdvance d => if 0 <? d then Some (set_now (now s + d) s) else None
  | LTicker =>
      match scanner s with
      | SDone => None
      | _ => if nextTick s <=? now s
             then Some (set_ticker true (nextTick s + time.Minute) s)
             else None
      end
  | LScanner c => scanner_step c s
  | LProcessor c => processor_step c s
  | LStop => Stop_signal s
  | LStopReturn => Stop_return s
  | LSubmit taskID => Some (SubmitTask_enter taskID s)
  | LSubmitter k c => SubmitTask_leave k c s
  | LEnv op => env_step op s
  end.

Fixpoint run (ls : list label) (s : State) : option State :=
  match ls with
  | [] => Some s
  | l :: ls' =>
      match step l s with
      | Some s' => run ls' s'
      | None => None
      end
  end.

Definition reachable (s0 s : State) : Prop := ∃ ls, run ls s0 = Some s.
End worker.

(** ** Predicates and sample data used in the statements *)

Import models database repositories config worker.

(** Two rows that agree on every column an auto-completion must not touch. *)
Definition same_identity (t t' : Task) : Prop :=
  ID t' = ID t ∧ UserID t' = UserID t ∧ Title t' = Title t ∧
  Description t' = Description t ∧ CreatedAt t' = CreatedAt t.

(** An optional sign followed by at least one decimal digit and nothing else. *)
Fixpoint all_digits (s : string) : bool :=
  match s with
  | EmptyString => true
  | String c rest =>
      match strconv.digit c with
      | Some _ => all_digits rest
      | None => false
      end
  end.

Definition decimal_numeral (s : string) : bool :=
  match s with
  | EmptyString => false
  | String c rest =>
      if Ascii.eqb c "-" || Ascii.eqb c "+"
      then negb (String.eqb rest "") && all_digits rest
      else all_digits s
  end.

(** A pending task created at time 0, and a store that holds it. *)
Definition task1 : Task := mkTask "t1" "u1" "title" "text" "pending" 0 0.
Definition db1 : DB := mkDB [task1] None.
Definition cfg1 : Config := LoadConfig ∅.

(** The identifiers the log reports as queued by the scanner, oldest first. *)
Definition queued (ls : list LogLine) : list string :=
  flat_map (fun l => match l with LogQueued id => [id] | _ => [] end) ls.

(** The identifier the scanner has marked and is about to send, if any. *)
Definition sending (s : State) : option string :=
  match scanner s with
  | SSend id _ _ => Some id
  | _ => None
  end.

(** The bookkeeping of the in-flight set: an identifier reported as queued
    has an entry; an entry belongs to an identifier reported as queued or
    to the one being sent; the one being sent has an entry and has not been
    reported as queued; and none is reported twice. *)
Definition marks_inv (s : State) : Prop :=
  (∀ id, In id (queued (logs s)) → processedTasks (w s) !! id = Some true) ∧
  (∀ id, is_Some (processedTasks (w s) !! id) →
         In id (queued (logs s)) ∨ sending s = Some id) ∧
  (∀ id, sending s = Some id →
         ¬ In id (queued (logs s)) ∧ processedTasks (w s) !! id = Some true) ∧
  NoDup (queued (logs s)).

(** Every row of the store has one of the statuses the services admit. *)
Definition valid_store (d : DB) : Prop :=
  Forall (fun t => services.is_valid_status (Status t) = true) (tasks d).

(** The goroutines that have not returned. *)
Definition alive (s : State) : nat :=
  ((match scanner s with SDone => 0 | _ => 1 end) +
   (match processor s with PDone => 0 | _ => 1 end))%nat.

(** The wait group counts the live goroutines; the stop channel is closed
    from the call of [Stop] on, the task channel once [Stop] has returned. *)
Definition lifecycle_inv (s : State) : Prop :=
  wg (w s) = alive s ∧
  (stopChannel (w s) = true ↔ stopper s ≠ StopNotCalled) ∧
  (taskChannelClosed (w s) = true ↔ stopper s = StopReturned) ∧
  (stopper s = StopReturned → scanner s = SDone ∧ processor s = PDone).

(** A run in which the scanner queues [task1], the store is unreachable
    while the processor handles it, and the next scan finds the task
    again. *)
Definition rediscovery_run : list label :=
  [LAdvance (31 * time.Minute); LTicker; LScanner (Some CaseTick);
   LScanner None; LScanner (Some (CaseSend "t1")); LScanner None;
   LEnv (EnvConn (Some "connection refused"));
   LProcessor (Some CaseRecv);
   LEnv (EnvConn None);
   LAdvance time.Minute; LTicker; LScanner (Some CaseTick);
   LScanner None; LScanner None].

(** A run in which the scanner queues [task1] and [Stop] is called, and
    returns, before the processor has dequeued it. *)
Definition shutdown_run : list label :=
  [LAdvance (31 * time.Minute); LTicker; LScanner (Some CaseTick);
   LScanner None; LScanner (Some (CaseSend "t1")); LScanner None;
   LStop; LProcessor (Some CaseStop); LScanner (Some CaseStop); LStopReturn].

(** The state after one call of [SubmitTask] has put "t1" in the queue. *)
Definition submitted : State :=
  add_return ("t1", None)
    (add_log (LogSubmitted "t1") (set_taskChannel ["t1"] (initial db1 cfg1 0))).

(** A run that fills the queue through [SubmitTask] while the processor is
    not scheduled, lets the scanner find [task1] and mark it, lets one more
    caller enter [SubmitTask], and then calls [Stop]; and the state it ends
    in. *)
Definition saturating_run : list label :=
  (flat_map (fun _ => [LSubmit "x"; LSubmitter 0 (CaseSend "x")]) (seq 0 100)
   ++ [LAdvance (31 * time.Minute); LTicker; LScanner (Some CaseTick);
       LScanner None; LSubmit "t2"; LStop])%list.

Definition saturated : State :=
  mkState
    (mkTaskWorker db1 cfg1 (repeat "x" 100) false true 2 {[ "t1" := true ]})
    (31 * time.Minute) false (2 * time.Minute)
    (SSend "t1" (31 * time.Minute) []) PSelect StopWait
    [("t2", 31 * time.Minute)]
    (repeat ("x", None) 100)
    ([LogStarting; LogStarted] ++ repeat (LogSubmitted "x") 100 ++ [LogStopping])
    [QueryEligible 30]
    false.

(** A string without a space. *)
Fixpoint no_space (s : string) : bool :=
  match s with
  | EmptyString => true
  | String c rest => negb (Ascii.eqb c " ") && no_space rest
  end.

(** The identifiers the log reports as put into the queue, by the scanner
    or by [SubmitTask], oldest first; and the identifiers the processor has
    fetched, oldest first. *)
Definition enqueued (ls : list LogLine) : list string :=
  flat_map (fun l => match l with
                     | LogQueued id | LogSubmitted id => [id]
                     | _ => []
                     end) ls.

Definition fetched (cs : list store_call) : list string :=
  flat_map (fun c => match c with QueryTask id => [id] | _ => [] end) cs.

(** The queue holds, in order, what was put into it and has not been
    fetched; it never holds more than its capacity; and the program has not
    panicked unless [Stop] has returned. *)
Definition queue_inv (s : State) : Prop :=
  lifecycle_inv s ∧
  enqueued (logs s) = (fetched (calls s) ++ taskChannel (w s))%list ∧
  (List.length (taskChannel (w s)) ≤ taskChannelCap)%nat ∧
  (panicked s = true → stopper s = StopReturned).

(** [GetTaskByID] would find a row for the identifier, and the row is
    neither pending nor in_progress. *)
Definition closed_first (id : string) (d : DB) : Prop :=
  ∃ r, List.find (fun t => String.eqb (ID t) id) (tasks d) = Some r ∧
       status_open (Status r) = false.

(** The scanner is at the head of its loop over [ts], the processor waits,
    the queue is empty and open, and the store answers. *)
Definition scanning (ts : list Task) (s : State) : Prop :=
  scanner s = SLoop ts ∧ processor s = PSelect ∧ panicked s = false ∧
  taskChannel (w s) = [] ∧ taskChannelClosed (w s) = false ∧
  conn_err (db (w s)) = None.

(** ** Case analysis of a step *)

Ltac step_cases H :=
  unfold step, scanner_step, processor_step, Stop_signal, Stop_return,
    SubmitTask_enter, SubmitTask_leave, env_step, processor_recv,
    findAndQueueTasks_query in H;
  repeat match type of H with
         | context [match ?x with _ => _ end] =>
             destruct x eqn:?; try discriminate H
         end;
  injection H as <-.

(** ** The store *)

Section Store.

Lemma status_open_spec (s : string) :
  status_open s = true ↔ s = "pending" ∨ s = "in_progress".
Proof.
  unfold status_open. rewrite orb_true_iff, !String.eqb_eq. tauto.
Qed.

Lemma status_open_completed : status_open "completed" = false.
Proof. reflexivity. Qed.

Lemma eligible_spec (now minutes : Z) (t : Task) :
  eligible now minutes t = true ↔
  (Status t = "pending" ∨ Status t = "in_progress") ∧
  CreatedAt t < now - time.Minute * minutes.
Proof.
  unfold eligible. rewrite andb_true_iff, status_open_spec, Z.ltb_lt. tauto.
Qed.

Lemma GetTasksForAutoCompletion_ok (d : DB) (now minutes : Z) :
  conn_err d = None →
  GetTasksForAutoCompletion d now minutes =
    (List.filter (eligible now minutes) (tasks d), None).
Proof. intros H. unfold GetTasksForAutoCompletion. now rewrite H. Qed.

Lemma GetTasksForAutoCompletion_err (d : DB) (now minutes : Z) (e : error) :
  conn_err d = Some e →
  GetTasksForAutoCompletion d now minutes = ([], Some e).
Proof. intros H. unfold GetTasksForAutoCompletion. now rewrite H. Qed.

Lemma complete_row_identity (now : Z) (taskID : string) (t : Task) :
  same_identity t (complete_row now taskID t).
Proof.
  unfold complete_row, same_identity.
  destruct (String.eqb (ID t) taskID && status_open (Status t)); simpl; tauto.
Qed.

Lemma complete_row_other (now : Z) (taskID : string) (t : Task) :
  ID t ≠ taskID → complete_row now taskID t = t.
Proof.
  intros Hne. unfold complete_row.
  destruct (String.eqb_spec (ID t) taskID) as [Heq | _]; [contradiction | reflexivity].
Qed.

Lemma complete_row_closed (now : Z) (taskID : string) (t : Task) :
  status_open (Status t) = false → complete_row now taskID t = t.
Proof.
  intros H. unfold complete_row. rewrite H, andb_false_r. reflexivity.
Qed.

Lemma complete_row_changed (now : Z) (taskID : string) (t : Task) :
  complete_row now taskID t ≠ t →
  ID t = taskID ∧ status_open (Status t) = true ∧
  Status (complete_row now taskID t) = "completed" ∧
  UpdatedAt (complete_row now taskID t) = now.
Proof.
  unfold complete_row.
  destruct (String.eqb_spec (ID t) taskID) as [Heq | Hne]; simpl;
    [destruct (status_open (Status t)); simpl |]; intros Hchg; try congruence.
  repeat split; auto.
Qed.

Lemma complete_row_open (now : Z) (taskID : string) (t : Task) :
  ID t = taskID → status_open (Status t) = true →
  complete_row now taskID t =
    mkTask (ID t) (UserID t) (Title t) (Description t) "completed" (CreatedAt t) now.
Proof.
  intros Hid Hs. unfold complete_row.
  rewrite Hs, andb_true_r. now apply String.eqb_eq in Hid as ->.
Qed.

Lemma AutoCompleteTask_tasks (d : DB) (now : Z) (taskID : string) :
  tasks (fst (AutoCompleteTask d now taskID)) =
    match conn_err d with
    | Some _ => tasks d
    | None => List.map (complete_row now taskID) (tasks d)
    end.
Proof. unfold AutoCompleteTask. destruct (conn_err d); reflexivity. Qed.

Lemma AutoCompleteTask_conn (d : DB) (now : Z) (taskID : string) :
  conn_err (fst (AutoCompleteTask d now taskID)) = conn_err d ∧
  snd (AutoCompleteTask d now taskID) = conn_err d.
Proof. unfold AutoCompleteTask. destruct (conn_err d) eqn:E; simpl; auto. Qed.

Lemma GetTaskByID_found (d : DB) (taskID : string) (t : Task) :
  GetTaskByID d taskID = (Some t, None) →
  conn_err d = None ∧ In t (tasks d) ∧ ID t = taskID.
Proof.
  unfold GetTaskByID. destruct (conn_err d); [discriminate |].
  destruct (List.find _ (tasks d)) as [t' |] eqn:F; [| discriminate].
  intros [= <-]. apply List.find_some in F as [Hin Heq].
  apply String.eqb_eq in Heq. auto.
Qed.

Lemma GetTaskByID_cases (d : DB) (taskID : string) :
  (∃ e, conn_err d = Some e ∧ GetTaskByID d taskID = (Some zero, Some e)) ∨
  (conn_err d = None ∧ GetTaskByID d taskID = (None, Some "task not found") ∧
     ∀ t, In t (tasks d) → ID t ≠ taskID) ∨
  (∃ t, GetTaskByID d taskID = (Some t, None)).
Proof.
  unfold GetTaskByID. destruct (conn_err d) as [e |]; [left; eauto |].
  right. destruct (List.find _ (tasks d)) as [t |] eqn:F; [right; eauto |].
  left. repeat split; auto. intros t Hin Heq.
  pose proof (List.find_none _ _ F t Hin) as Hf. simpl in Hf.
  apply String.eqb_eq in Heq. congruence.
Qed.

End Store.

(** ** The configuration *)

Section Config.

Lemma Atoi_syntax_zero (s : string) :
  snd (strconv.Atoi s) = Some strconv.ErrSyntax → fst (strconv.Atoi s) = 0.
Proof.
  unfold strconv.Atoi, strconv.ParseInt.
  repeat match goal with
         | |- context [match ?x with _ => _ end] => destruct x; simpl
         end; intros; congruence.
Qed.

Lemma fast_digits_all_digits (s : string) (n : Z) :
  all_digits s = false → strconv.fast_digits s n = None.
Proof.
  revert n. induction s as [| c s IH]; simpl; intros n H; [discriminate |].
  destruct (strconv.digit c); auto.
Qed.

Lemma Atoi_short_malformed (s : string) :
  (String.length s < 19)%nat → decimal_numeral s = false →
  strconv.Atoi s = (0, Some strconv.ErrSyntax).
Proof.
  intros Hlen Hnum. unfold strconv.Atoi.
  destruct s as [| c rest]; [reflexivity |].
  replace ((0 <? String.length (String c rest))%nat
           && (String.length (String c rest) <? 19)%nat) with true.
  2:{ symmetry. apply andb_true_iff. split; [reflexivity |].
      apply Nat.ltb_lt. exact Hlen. }
  unfold decimal_numeral in Hnum.
  destruct (Ascii.eqb c "-" || Ascii.eqb c "+") eqn:Hsign.
  - destruct rest as [| c' rest']; [reflexivity |].
    change (all_digits (String c' rest') = false) in Hnum. simpl (_ && _).
    now rewrite (fast_digits_all_digits _ 0 Hnum).
  - simpl (_ && _). now rewrite (fast_digits_all_digits _ 0 Hnum).
Qed.

Lemma getEnvInt_set (env : gmap string string) (key value : string) (d : Z) :
  env !! key = Some value → value ≠ "" →
  getEnvInt env key d = fst (strconv.Atoi value).
Proof.
  intros Hk Hne. unfold getEnvInt, Getenv. rewrite Hk. simpl.
  destruct (String.eqb_spec value ""); [contradiction | reflexivity].
Qed.

End Config.

(** ** The processor *)

Section Processor.

Lemma is_valid_status_spec (s : string) :
  services.is_valid_status s = true ↔
  s = "pending" ∨ s = "in_progress" ∨ s = "completed".
Proof.
  unfold services.is_valid_status, services.validStatuses.
  destruct (decide (s = "pending")) as [-> | H1]; [intuition |].
  destruct (decide (s = "in_progress")) as [-> | H2]; [intuition |].
  destruct (decide (s = "completed")) as [-> | H3]; [intuition |].
  rewrite lookup_insert_ne by congruence.
  rewrite lookup_insert_ne by congruence.
  rewrite lookup_singleton_ne by congruence.
  simpl. intuition congruence.
Qed.

Lemma autoCompleteTask_fetch_cases (d : DB) (taskID : string) :
  match autoCompleteTask_fetch d taskID with
  | FetchSkip l =>
      (∃ e, snd (GetTaskByID d taskID) = Some e ∧ l = LogNotFound taskID e) ∨
      (∃ t, GetTaskByID d taskID = (Some t, None) ∧ Status t = "completed" ∧
            l = LogAlreadyCompleted taskID)
  | FetchGo => ∃ t, GetTaskByID d taskID = (Some t, None) ∧ Status t ≠ "completed"
  | FetchPanic => False
  end.
Proof.
  unfold autoCompleteTask_fetch.
  destruct (GetTaskByID_cases d taskID) as [(e & _ & ->) | [(_ & -> & _) | (t & ->)]].
  - left. eauto.
  - left. eauto.
  - destruct (String.eqb_spec (Status t) "completed") as [Heq | Hne].
    + right. eauto.
    + eauto.
Qed.

Lemma autoCompleteTask_update_spec (d : DB) (now : Z) (taskID : string) :
  fst (autoCompleteTask_update d now taskID) = fst (AutoCompleteTask d now taskID) ∧
  snd (autoCompleteTask_update d now taskID) =
    match conn_err d with
    | Some e => LogCompleteError taskID e
    | None => LogAutoCompleted taskID
    end.
Proof.
  unfold autoCompleteTask_update, AutoCompleteTask. destruct (conn_err d); simpl; auto.
Qed.

Lemma completed_rows_kept (d : DB) (now : Z) (taskID : string) :
  Forall2 (fun t t' => Status t = "completed" → t' = t)
          (tasks d) (tasks (fst (AutoCompleteTask d now taskID))).
Proof.
  rewrite AutoCompleteTask_tasks. destruct (conn_err d).
  - induction (tasks d) as [| t l IH]; constructor; auto.
  - induction (tasks d) as [| t l IH]; simpl; constructor; auto.
    intros Hs. apply complete_row_closed. now rewrite Hs.
Qed.

End Processor.

Section Selects.

Lemma fires_spec (s : State) (entered : Z) (cases : list select_case)
    (c : select_case) :
  fires s entered cases c = true ↔ c ∈ cases ∧ ready s entered c = true.
Proof.
  unfold fires. rewrite andb_true_iff, bool_decide_eq_true. reflexivity.
Qed.

Lemma fires_intro (s : State) (entered : Z) (cases : list select_case)
    (c : select_case) :
  c ∈ cases → ready s entered c = true → fires s entered cases c = true.
Proof. intros. apply fires_spec. auto. Qed.

End Selects.

(** ** The scanner *)

Section Scanner.

Lemma in_select_checkAndQueueTasks (c : select_case) :
  c ∈ select_checkAndQueueTasks ↔ c = CaseStop ∨ c = CaseTick.
Proof.
  unfold select_checkAndQueueTasks.
  rewrite !elem_of_cons, elem_of_nil. tauto.
Qed.

Lemma in_select_processTasksFromChannel (c : select_case) :
  c ∈ select_processTasksFromChannel ↔ c = CaseStop ∨ c = CaseRecv.
Proof.
  unfold select_processTasksFromChannel.
  rewrite !elem_of_cons, elem_of_nil. tauto.
Qed.

Lemma in_select_findAndQueueTasks (id : string) (c : select_case) :
  c ∈ select_findAndQueueTasks id ↔
  c = CaseSend id ∨ c = CaseAfter (100 * time.Millisecond).
Proof.
  unfold select_findAndQueueTasks.
  rewrite !elem_of_cons, elem_of_nil. tauto.
Qed.

Lemma in_select_SubmitTask (id : string) (c : select_case) :
  c ∈ select_SubmitTask id ↔ c = CaseSend id ∨ c = CaseAfter (5 * time.Second).
Proof.
  unfold select_SubmitTask.
  rewrite !elem_of_cons, elem_of_nil. tauto.
Qed.

Lemma fires_false (s : State) (entered : Z) (cases : list select_case)
    (c : select_case) :
  (c ∈ cases → ready s entered c = false) → fires s entered cases c = false.
Proof.
  intros H. destruct (fires s entered cases c) eqn:F; [| reflexivity].
  apply fires_spec in F as [Hin Hr]. rewrite (H Hin) in Hr. discriminate.
Qed.

(** The scanner leaves its loop through the stop case only. *)
Lemma scanner_exits_on_stop_only (l : label) (s s' : State) :
  step l s = Some s' → scanner s' = SDone →
  scanner s = SDone ∨ (l = LScanner (Some CaseStop) ∧ stopChannel (w s) = true).
Proof.
  unfold step. destruct (panicked s); [discriminate |].
  destruct l as [d | | c | c | | | id | k c | op]; intros Hstep Hdone.
  - destruct (0 <? d); [| discriminate]. injection Hstep as <-. now left.
  - destruct (scanner s) eqn:Hs; try discriminate;
      destruct (nextTick s <=? now s); try discriminate;
      injection Hstep as <-; simpl in Hdone; congruence.
  - unfold scanner_step in Hstep.
    destruct (scanner s) as [| [| t rest] | id e rest |] eqn:Hs.
    + destruct c as [c |]; [| discriminate].
      destruct (fires s 0 select_checkAndQueueTasks c) eqn:F; [| discriminate].
      apply fires_spec in F as [_ Hr].
      destruct c; try discriminate.
      * right. auto.
      * injection Hstep as <-. unfold findAndQueueTasks_query in Hdone.
        destruct (GetTasksForAutoCompletion _ _ _) as [ts [e |]];
          simpl in Hdone; congruence.
    + destruct c; [discriminate |]. injection Hstep as <-. discriminate.
    + destruct c; [discriminate |].
      destruct (processedTasks (w s) !! ID t);
        injection Hstep as <-; discriminate.
    + destruct c as [c |]; [| discriminate].
      destruct (fires s e (select_findAndQueueTasks id) c); [| discriminate].
      destruct c; try discriminate.
      * destruct (taskChannelClosed (w s)); injection Hstep as <-;
          simpl in Hdone; congruence.
      * injection Hstep as <-. discriminate.
    + now left.
  - unfold processor_step in Hstep.
    destruct (processor s) as [| id |]; try discriminate.
    + destruct c as [c |]; [| discriminate].
      destruct (fires s 0 select_processTasksFromChannel c); [| discriminate].
      destruct c; try discriminate; injection Hstep as <-.
      * now left.
      * unfold processor_recv in Hdone.
        destruct (autoCompleteTask_fetch _ _); simpl in Hdone; now left.
    + destruct c; [discriminate |].
      destruct (autoCompleteTask_update _ _ _) as [d' l]. injection Hstep as <-. now left.
  - unfold Stop_signal in Hstep. destruct (stopper s); try discriminate.
    injection Hstep as <-. now left.
  - unfold Stop_return in Hstep.
    destruct (stopper s); try discriminate. destruct (wg (w s)); try discriminate.
    injection Hstep as <-. now left.
  - injection Hstep as <-. now left.
  - unfold SubmitTask_leave in Hstep.
    destruct (submits s !! k) as [[id e] |]; [| discriminate].
    destruct (fires s e (select_SubmitTask id) c); [| discriminate].
    destruct c; try discriminate.
    + destruct (taskChannelClosed (w s)); injection Hstep as <-; now left.
    + injection Hstep as <-. now left.
  - unfold env_step in Hstep. destruct op.
    + destruct (existsb _ _); [discriminate |]. injection Hstep as <-. now left.
    + injection Hstep as <-. now left.
    + injection Hstep as <-. now left.
    + injection Hstep as <-. now left.
Qed.

End Scanner.

(** ** The bounded waits *)

Section BoundedWaits.

Lemma durations_positive :
  0 < 100 * time.Millisecond ∧ 100 * time.Millisecond < 5 * time.Second ∧
  5 * time.Second < time.Minute.
Proof. vm_compute. repeat split. Qed.

Lemma ready_send_false (s : State) (entered : Z) (id : string) :
  ready s entered (CaseSend id) = false ↔
  (taskChannelCap ≤ List.length (taskChannel (w s)))%nat ∧
  taskChannelClosed (w s) = false.
Proof.
  unfold ready. rewrite orb_false_iff, Nat.ltb_ge. reflexivity.
Qed.

Lemma ready_send_room (s : State) (entered : Z) (id : string) :
  (List.length (taskChannel (w s)) < taskChannelCap)%nat →
  ready s entered (CaseSend id) = true.
Proof.
  intros Hroom. unfold ready. apply orb_true_iff. left. now apply Nat.ltb_lt.
Qed.

(** A send select on a full queue has no case to take before its timer
    fires, whether or not shutdown has been signalled. *)
Lemma send_select_blocked (s : State) (entered d : Z) (id : string)
    (c : select_case) :
  ready s entered (CaseSend id) = false →
  now s < entered + d →
  fires s entered [CaseSend id; CaseAfter d] c = false.
Proof.
  intros Hfull Hearly. apply fires_false.
  rewrite !elem_of_cons, elem_of_nil. intros [-> | [-> | []]].
  - exact Hfull.
  - unfold ready. apply Z.leb_gt. exact Hearly.
Qed.

Lemma enqueue_blocked (s : State) (id : string) (entered : Z) (rest : list Task)
    (c : option select_case) :
  scanner s = SSend id entered rest →
  ready s entered (CaseSend id) = false →
  now s < entered + 100 * time.Millisecond →
  step (LScanner c) s = None.
Proof.
  intros Hpc Hfull Hearly. unfold step.
  destruct (panicked s); [reflexivity |].
  unfold scanner_step. rewrite Hpc. destruct c as [c |]; [| reflexivity].
  unfold select_findAndQueueTasks.
  now rewrite send_select_blocked.
Qed.

Lemma submit_blocked (s : State) (k : nat) (id : string) (entered : Z)
    (c : select_case) :
  submits s !! k = Some (id, entered) →
  ready s entered (CaseSend id) = false →
  now s < entered + 5 * time.Second →
  step (LSubmitter k c) s = None.
Proof.
  intros Hk Hfull Hearly. unfold step.
  destruct (panicked s); [reflexivity |].
  unfold SubmitTask_leave. rewrite Hk.
  unfold select_SubmitTask. now rewrite send_select_blocked.
Qed.

End BoundedWaits.

(** ** Runs *)

Section Runs.

Lemma run_app (l1 l2 : list label) (s : State) :
  run (l1 ++ l2) s =
    match run l1 s with
    | Some s1 => run l2 s1
    | None => None
    end.
Proof.
  revert s. induction l1 as [| l l1 IH]; intros s; simpl; [reflexivity |].
  destruct (step l s); auto.
Qed.

Lemma reachable_refl (s : State) : reachable s s.
Proof. exists []. reflexivity. Qed.

Lemma reachable_step (s0 s s' : State) (l : label) :
  reachable s0 s → step l s = Some s' → reachable s0 s'.
Proof.
  intros [ls Hls] Hstep. exists (ls ++ [l])%list.
  rewrite run_app, Hls. simpl. now rewrite Hstep.
Qed.

Lemma reachable_trans (s0 s1 s2 : State) :
  reachable s0 s1 → reachable s1 s2 → reachable s0 s2.
Proof.
  intros [l1 H1] [l2 H2]. exists (l1 ++ l2)%list. now rewrite run_app, H1.
Qed.

(** Induction over the runs from a state. *)
Lemma reachable_ind (s0 : State) (P : State → Prop) :
  P s0 →
  (∀ l s s', P s → step l s = Some s' → P s') →
  ∀ s, reachable s0 s → P s.
Proof.
  intros H0 Hstep s [ls Hls]. revert s0 H0 Hls.
  induction ls as [| l ls IH]; intros s0 H0 Hls; simpl in Hls.
  - now injection Hls as <-.
  - destruct (step l s0) as [s1 |] eqn:E; [| discriminate]. eauto.
Qed.

End Runs.

(** ** The in-flight set *)

Section Marks.

Lemma queued_snoc (ls : list LogLine) (l : LogLine) :
  queued (ls ++ [l]) = (queued ls ++ queued [l])%list.
Proof. unfold queued. apply flat_map_app. Qed.

Lemma autoCompleteTask_fetch_not_queued (d : DB) (taskID : string) (l : LogLine) :
  autoCompleteTask_fetch d taskID = FetchSkip l → queued [l] = [].
Proof.
  unfold autoCompleteTask_fetch.
  destruct (GetTaskByID d taskID) as [[t |] [e |]];
    try destruct (String.eqb (Status t) "completed");
    intros [= <-] || discriminate; reflexivity.
Qed.

Lemma autoCompleteTask_update_not_queued (d d' : DB) (now : Z) (taskID : string) (l : LogLine) :
  autoCompleteTask_update d now taskID = (d', l) → queued [l] = [].
Proof.
  unfold autoCompleteTask_update. destruct (AutoCompleteTask d now taskID) as [d0 [e |]];
    intros [= _ <-]; reflexivity.
Qed.

(** Only the scanner touches the in-flight set, its own program counter
    and the queued lines of the log. *)
Lemma other_steps_keep_marks (l : label) (s s' : State) :
  (∀ c, l ≠ LScanner c) →
  step l s = Some s' →
  processedTasks (w s') = processedTasks (w s) ∧
  scanner s' = scanner s ∧
  queued (logs s') = queued (logs s).
Proof.
  intros Hl Hstep.
  destruct l as [d | | c | c | | | id | k c | op]; [| | now destruct (Hl c) | ..].
  all: step_cases Hstep; simpl.
  all: try (repeat split; congruence).
  all: rewrite queued_snoc.
  all: try (erewrite autoCompleteTask_fetch_not_queued by eassumption).
  all: try (erewrite autoCompleteTask_update_not_queued by eassumption).
  all: simpl; rewrite app_nil_r; repeat split; reflexivity.
Qed.

Lemma marks_inv_view (s s' : State) :
  processedTasks (w s') = processedTasks (w s) →
  sending s' = sending s →
  queued (logs s') = queued (logs s) →
  marks_inv s → marks_inv s'.
Proof.
  unfold marks_inv. intros -> -> ->. trivial.
Qed.

Lemma marks_inv_initial (d : DB) (c : Config) (now0 : Z) :
  marks_inv (initial d c now0).
Proof.
  unfold marks_inv. simpl. repeat split.
  - intros id [].
  - intros id [x Hx]. rewrite lookup_empty in Hx. discriminate.
  - discriminate.
  - rewrite lookup_empty in *. discriminate.
  - constructor.
Qed.

Lemma marks_inv_step (l : label) (s s' : State) :
  marks_inv s → step l s = Some s' → marks_inv s'.
Proof.
  intros Hinv Hstep.
  assert (Hcase : (∃ c, l = LScanner c) ∨ (∀ c, l ≠ LScanner c))
    by (destruct l; eauto; right; discriminate).
  destruct Hcase as [[c ->] | Hother].
  2:{ destruct (other_steps_keep_marks l s s') as (Hm & Hpc & Hq); auto.
      apply (marks_inv_view s s'); auto. unfold sending. now rewrite Hpc. }
  unfold step in Hstep. destruct (panicked s) eqn:Hpanic; [discriminate |].
  unfold scanner_step in Hstep.
  destruct (scanner s) as [| [| t rest] | id e rest |] eqn:Hpc.
  - (* at the select of checkAndQueueTasks *)
    destruct c as [c |]; [| discriminate].
    destruct (fires s 0 select_checkAndQueueTasks c); [| discriminate].
    destruct c; try discriminate; injection Hstep as <-.
    + apply (marks_inv_view s); auto. unfold sending. simpl. now rewrite Hpc.
    + unfold findAndQueueTasks_query.
      destruct (GetTasksForAutoCompletion _ _ _) as [ts [err |]];
        apply (marks_inv_view s); auto; unfold sending; simpl; rewrite ?Hpc;
        try reflexivity.
      rewrite queued_snoc. simpl. apply app_nil_r.
  - (* the range loop is over *)
    destruct c; [discriminate |]. injection Hstep as <-.
    apply (marks_inv_view s); auto. unfold sending. simpl. now rewrite Hpc.
  - (* the head of the range loop *)
    destruct c; [discriminate |].
    destruct (processedTasks (w s) !! ID t) eqn:Hlook; injection Hstep as <-.
    + apply (marks_inv_view s); auto. unfold sending. simpl. now rewrite Hpc.
    + destruct Hinv as (I1 & I2 & I3 & I4).
      assert (Hnone : sending s = None) by (unfold sending; now rewrite Hpc).
      unfold marks_inv, sending. simpl.
      refine (conj _ (conj _ (conj _ I4))).
      * intros id Hin. destruct (decide (ID t = id)) as [<- | Hne].
        -- apply lookup_insert_eq.
        -- rewrite lookup_insert_ne by exact Hne. auto.
      * intros id Hsome. destruct (decide (ID t = id)) as [<- | Hne]; [now right |].
        rewrite lookup_insert_ne in Hsome by exact Hne.
        destruct (I2 id Hsome) as [Hin | Heq]; [now left | congruence].
      * intros id [= <-]. split; [| apply lookup_insert_eq].
        intros Hin. rewrite (I1 _ Hin) in Hlook. discriminate.
  - (* at the select that sends *)
    destruct c as [c |]; [| discriminate].
    destruct (fires s e (select_findAndQueueTasks id) c); [| discriminate].
    destruct Hinv as (I1 & I2 & I3 & I4).
    assert (Hsend : sending s = Some id) by (unfold sending; now rewrite Hpc).
    destruct (I3 id Hsend) as [Hfresh Hmarked].
    destruct c; try discriminate.
    + destruct (taskChannelClosed (w s)); injection Hstep as <-.
      * apply (marks_inv_view s); auto. split; auto.
      * unfold marks_inv, sending. simpl. rewrite queued_snoc. simpl.
        refine (conj _ (conj _ (conj _ _))).
        -- intros id' Hin. apply in_app_iff in Hin as [Hin | [<- | []]]; auto.
        -- intros id' Hsome. left. apply in_app_iff.
           destruct (I2 id' Hsome) as [Hin | Heq]; [now left |].
           right. left. congruence.
        -- discriminate.
        -- apply NoDup_app. split; [exact I4 |]. split; [| apply NoDup_singleton].
           intros x Hx Hx'. apply list_elem_of_singleton in Hx' as ->.
           apply Hfresh. now apply list_elem_of_In.
    + injection Hstep as <-. unfold marks_inv, sending. simpl.
      refine (conj _ (conj _ (conj _ I4))).
      * intros id' Hin. rewrite lookup_delete_ne; [auto |].
        intros <-. contradiction.
      * intros id' Hsome. left. destruct (decide (id = id')) as [<- | Hne].
        -- rewrite lookup_delete_eq in Hsome. destruct Hsome. discriminate.
        -- rewrite lookup_delete_ne in Hsome by exact Hne.
           destruct (I2 id' Hsome) as [Hin | Heq]; [exact Hin | congruence].
      * discriminate.
  - discriminate.
Qed.

Lemma marks_inv_reachable (d : DB) (c : Config) (now0 : Z) (s : State) :
  reachable (initial d c now0) s → marks_inv s.
Proof.
  apply reachable_ind.
  - apply marks_inv_initial.
  - intros l x x' Hinv Hstep. exact (marks_inv_step l x x' Hinv Hstep).
Qed.

End Marks.

(** ** The life cycle *)

Section Lifecycle.

Lemma lifecycle_inv_initial (d : DB) (c : Config) (now0 : Z) :
  lifecycle_inv (initial d c now0).
Proof.
  unfold lifecycle_inv, alive. simpl. intuition discriminate.
Qed.

Lemma lifecycle_inv_step (l : label) (s s' : State) :
  lifecycle_inv s → step l s = Some s' → lifecycle_inv s'.
Proof.
  destruct s as [[d cf q closed stop n marks] t tick next sc pr st subs rets lg cl pan].
  unfold lifecycle_inv, alive. simpl. intros (Hwg & Hstop & Hclosed & Hret) Hstep.
  step_cases Hstep; simpl in *; subst.
  all: try (destruct sc; simpl in *); try (destruct pr; simpl in *);
    try (destruct st; simpl in *).
  all: try discriminate.
  all: try (destruct Hret as [? ?]; [reflexivity |]; try discriminate).
  all: intuition (try discriminate; try congruence; try lia).
Qed.

(** [Stop] returns only after both goroutines have returned. *)
Lemma Stop_returns_after_loops (d : DB) (c : Config) (now0 : Z) (s : State) :
  reachable (initial d c now0) s →
  stopper s = StopReturned → scanner s = SDone ∧ processor s = PDone.
Proof.
  intros Hreach. assert (Hinv : lifecycle_inv s).
  { revert s Hreach. apply reachable_ind.
    - apply lifecycle_inv_initial.
    - intros l x x'. apply lifecycle_inv_step. }
  apply Hinv.
Qed.

End Lifecycle.

Section MarksPersist.

Lemma queued_grows_step (l : label) (s s' : State) :
  step l s = Some s' → ∀ id, In id (queued (logs s)) → In id (queued (logs s')).
Proof.
  intros Hstep id Hin.
  assert (Hcase : (∃ c, l = LScanner c) ∨ (∀ c, l ≠ LScanner c))
    by (destruct l; eauto; right; discriminate).
  destruct Hcase as [[c ->] | Hother].
  2:{ destruct (other_steps_keep_marks l s s' Hother Hstep) as (_ & _ & ->).
      exact Hin. }
  unfold step in Hstep. destruct (panicked s); [discriminate |].
  unfold scanner_step, findAndQueueTasks_query in Hstep.
  repeat match type of Hstep with
         | context [match ?x with _ => _ end] =>
             destruct x eqn:?; try discriminate Hstep
         end;
    injection Hstep as <-; simpl; rewrite ?queued_snoc;
    try apply in_app_iff; auto.
Qed.

Lemma queued_grows (s s' : State) :
  reachable s s' → ∀ id, In id (queued (logs s)) → In id (queued (logs s')).
Proof.
  intros Hreach id Hin. revert s' Hreach. apply reachable_ind; [exact Hin |].
  intros l x x' Hx Hstep. exact (queued_grows_step l x x' Hstep id Hx).
Qed.

End MarksPersist.

Section WorkerStore.

(** The only step of the worker that changes the store is the update of
    [autoCompleteTask]. *)
Lemma worker_steps_store (l : label) (s s' : State) :
  (∀ op, l ≠ LEnv op) →
  step l s = Some s' →
  db (w s') = db (w s) ∨
  ∃ id, l = LProcessor None ∧ processor s = PExec id ∧
        db (w s') = fst (AutoCompleteTask (db (w s)) (now s) id).
Proof.
  intros Hl Hstep.
  destruct l as [d | | c | c | | | id | k c | op]; [.. | now destruct (Hl op)].
  all: step_cases Hstep; simpl; auto.
  right. eexists. repeat split.
  match goal with H : autoCompleteTask_update _ _ _ = _ |- _ => rename H into Hc end.
  destruct (autoCompleteTask_update_spec (db (w s)) (now s) id) as [<- _]. now rewrite Hc.
Qed.

Lemma processor_runs_autoCompleteTask (s : State) (taskID : string) (q : list string) :
  processor s = PSelect →
  panicked s = false →
  taskChannel (w s) = taskID :: q →
  let o := autoCompleteTask (db (w s)) (now s) taskID in
  ∃ ls s',
    (ls = [LProcessor (Some CaseRecv)] ∨
     ls = [LProcessor (Some CaseRecv); LProcessor None]) ∧
    run ls s = Some s' ∧
    processor s' = PSelect ∧ panicked s' = false ∧ out_panic o = false ∧
    db (w s') = out_db o ∧
    calls s' = (calls s ++ out_calls o)%list ∧
    logs s' = (logs s ++ out_logs o)%list ∧
    taskChannel (w s') = q.
Proof.
  intros Hpc Hpanic Hq o. subst o.
  assert (Hfire : fires s 0 select_processTasksFromChannel CaseRecv = true).
  { apply fires_intro; [apply in_select_processTasksFromChannel; now right |].
    unfold ready. now rewrite Hq. }
  pose proof (autoCompleteTask_fetch_cases (db (w s)) taskID) as Hre.
  unfold autoCompleteTask.
  destruct (autoCompleteTask_fetch (db (w s)) taskID) as [l | |] eqn:Hrev; [| | contradiction].
  - exists [LProcessor (Some CaseRecv)]. eexists. split; [now left |].
    simpl. unfold step. rewrite Hpanic. unfold processor_step.
    rewrite Hpc, Hfire. unfold processor_recv. rewrite Hq. simpl. rewrite Hrev.
    split; [reflexivity |]. simpl. rewrite Hpc, Hpanic. repeat split; reflexivity.
  - destruct (autoCompleteTask_update (db (w s)) (now s) taskID) as [d' l] eqn:Hc.
    exists [LProcessor (Some CaseRecv); LProcessor None]. eexists.
    split; [now right |].
    simpl. unfold step at 1. rewrite Hpanic. unfold processor_step at 1.
    rewrite Hpc, Hfire. unfold processor_recv. rewrite Hq. simpl. rewrite Hrev.
    unfold step. simpl. rewrite Hpanic. unfold processor_step. simpl. rewrite Hc.
    split; [reflexivity |]. simpl. rewrite Hpanic.
    rewrite <- !app_assoc. repeat split; reflexivity.
Qed.

(** No step of the worker changes a completed row, whatever the rest of
    the program did to the store in between. *)
Lemma worker_keeps_completed (l : label) (s s' : State) :
  (∀ op, l ≠ LEnv op) →
  step l s = Some s' →
  Forall2 (fun r r' => Status r = "completed" → r' = r)
          (tasks (db (w s))) (tasks (db (w s'))).
Proof.
  intros Hl Hstep.
  destruct (worker_steps_store l s s' Hl Hstep) as [-> | (id & _ & _ & ->)].
  - induction (tasks (db (w s))); constructor; auto.
  - apply completed_rows_kept.
Qed.

Lemma AutoCompleteTask_noop (d : DB) (now : Z) (taskID : string) :
  conn_err d = None →
  (∀ r, In r (tasks d) → ID r = taskID → status_open (Status r) = false) →
  tasks (fst (AutoCompleteTask d now taskID)) = tasks d ∧
  snd (AutoCompleteTask d now taskID) = None ∧
  snd (autoCompleteTask_update d now taskID) = LogAutoCompleted taskID.
Proof.
  intros Hc Hno. rewrite AutoCompleteTask_tasks.
  destruct (AutoCompleteTask_conn d now taskID) as [_ ->].
  destruct (autoCompleteTask_update_spec d now taskID) as [_ ->]. rewrite Hc.
  repeat split. rewrite <- (List.map_id (tasks d)) at 2.
  apply List.map_ext_in. intros r Hr.
  destruct (decide (ID r = taskID)) as [Heq | Hne].
  - apply complete_row_closed. auto.
  - apply complete_row_other. auto.
Qed.

(** What [autoCompleteTask] does when the re-fetch finds the task. *)
Lemma autoCompleteTask_guarded (d : DB) (now : Z) (taskID : string) (t : Task) :
  GetTaskByID d taskID = (Some t, None) →
  services.is_valid_status (Status t) = true →
  let o := autoCompleteTask d now taskID in
  (∃ rest, out_calls o = QueryTask taskID :: rest) ∧
  (In (ExecComplete taskID) (out_calls o) ↔
     Status t = "pending" ∨ Status t = "in_progress") ∧
  (Status t = "pending" ∨ Status t = "in_progress" →
     tasks (out_db o) = List.map (complete_row now taskID) (tasks d) ∧
     In (mkTask (ID t) (UserID t) (Title t) (Description t) "completed"
                (CreatedAt t) now) (tasks (out_db o)) ∧
     out_logs o = [LogAutoCompleted taskID]) ∧
  (Status t = "completed" →
     out_db o = d ∧ out_calls o = [QueryTask taskID] ∧
     out_logs o = [LogAlreadyCompleted taskID]).
Proof.
  intros Hget Hvalid o.
  destruct (GetTaskByID_found d taskID t Hget) as (Hconn & Hin & Hid).
  apply is_valid_status_spec in Hvalid.
  subst o. unfold autoCompleteTask, autoCompleteTask_fetch. rewrite Hget.
  destruct (String.eqb_spec (Status t) "completed") as [Hdone | Hnot].
  - assert (Hclosed : ¬ (Status t = "pending" ∨ Status t = "in_progress"))
      by (intros [Hs | Hs]; rewrite Hs in Hdone; discriminate).
    simpl. refine (conj _ (conj _ (conj _ _))).
    + eauto.
    + split; [intros [Hq | []]; discriminate | intros Hs; contradiction].
    + intros Hs. contradiction.
    + auto.
  - assert (Hopen : Status t = "pending" ∨ Status t = "in_progress") by tauto.
    unfold autoCompleteTask_update, AutoCompleteTask. rewrite Hconn. simpl.
    refine (conj _ (conj _ (conj _ _))).
    + eauto.
    + split; [auto | intros _; right; left; reflexivity].
    + intros _. split; [reflexivity |]. split; [| reflexivity].
      apply List.in_map_iff. exists t. split; [| assumption].
      apply complete_row_open; [assumption | now apply status_open_spec].
    + intros Hs. contradiction.
Qed.

End WorkerStore.

Section ValidStore.

Lemma valid_store_AutoCompleteTask (d : DB) (now : Z) (taskID : string) :
  valid_store d → valid_store (fst (AutoCompleteTask d now taskID)).
Proof.
  unfold valid_store. rewrite AutoCompleteTask_tasks.
  destruct (conn_err d); [trivial |].
  intros H. apply Forall_map. eapply Forall_impl; [exact H |].
  intros t Ht. simpl. unfold complete_row.
  destruct (String.eqb (ID t) taskID && status_open (Status t)); [reflexivity | exact Ht].
Qed.

Lemma valid_store_CreateTask (d : DB) (now : Z) (id userID : string)
    (req : services.CreateTaskRequest) :
  valid_store d → valid_store (fst (services.CreateTask d now id userID req)).
Proof.
  unfold valid_store, services.CreateTask, CreateTask.
  destruct (String.eqb (services.ctTitle req) ""); [trivial |].
  destruct (conn_err d); [trivial |]. simpl.
  intros H. apply Forall_app. split; [exact H |].
  constructor; [reflexivity | constructor].
Qed.

Lemma valid_store_UpdateTask (d : DB) (now : Z) (userID taskID : string)
    (req : services.UpdateTaskRequest) (isAdmin : bool) :
  valid_store d →
  valid_store (fst (services.UpdateTask d now userID taskID req isAdmin)).
Proof.
  intros H. unfold services.UpdateTask.
  destruct (GetTaskByID d taskID) as [[t |] [e |]] eqn:Hget; try exact H.
  destruct (negb isAdmin && negb (String.eqb (UserID t) userID)); [exact H |].
  destruct (negb (String.eqb (services.utStatus req) "")
            && negb (services.is_valid_status (services.utStatus req))) eqn:Hv;
    [exact H |].
  destruct (GetTaskByID_found d taskID t Hget) as (_ & Hin & _).
  assert (Hnew : services.is_valid_status
            (if String.eqb (services.utStatus req) "" then Status t
             else services.utStatus req) = true).
  { destruct (String.eqb (services.utStatus req) "").
    - unfold valid_store in H. rewrite Forall_forall in H. apply H.
      now apply list_elem_of_In.
    - simpl in Hv. now apply negb_false_iff in Hv. }
  unfold UpdateTask. destruct (conn_err d); [exact H |].
  destruct (existsb _ (tasks d)); [| exact H].
  unfold valid_store. simpl. apply Forall_map.
  eapply Forall_impl; [exact H |]. intros r Hr. simpl.
  destruct (String.eqb (ID r) (ID t)); [exact Hnew | exact Hr].
Qed.

Lemma valid_store_DeleteTask (d : DB) (userID taskID : string) (isAdmin : bool) :
  valid_store d → valid_store (fst (services.DeleteTask d userID taskID isAdmin)).
Proof.
  intros H. unfold services.DeleteTask.
  destruct (GetTaskByID d taskID) as [[t |] [e |]]; try exact H.
  destruct (negb isAdmin && negb (String.eqb (UserID t) userID)); [exact H |].
  unfold DeleteTask. destruct (conn_err d); [exact H |].
  unfold valid_store in *. simpl. rewrite Forall_forall in *.
  intros x Hx. apply H. apply list_elem_of_In.
  apply list_elem_of_In in Hx. apply List.filter_In in Hx. tauto.
Qed.

Lemma valid_store_step (l : label) (s s' : State) :
  valid_store (db (w s)) → step l s = Some s' → valid_store (db (w s')).
Proof.
  intros H Hstep.
  assert (Hcase : (∃ op, l = LEnv op) ∨ (∀ op, l ≠ LEnv op))
    by (destruct l; eauto; left; eauto).
  destruct Hcase as [[op ->] | Hother].
  - unfold step in Hstep. destruct (panicked s); [discriminate |].
    unfold env_step in Hstep. destruct op.
    + destruct (existsb _ _); [discriminate |]. injection Hstep as <-.
      simpl. now apply valid_store_CreateTask.
    + injection Hstep as <-. simpl. now apply valid_store_UpdateTask.
    + injection Hstep as <-. simpl. now apply valid_store_DeleteTask.
    + injection Hstep as <-. exact H.
  - destruct (worker_steps_store l s s' Hother Hstep) as [-> | (id & _ & _ & ->)];
      [exact H | now apply valid_store_AutoCompleteTask].
Qed.

(** The worker and the services keep the statuses of the store valid. *)
Lemma valid_store_reachable (d : DB) (c : Config) (now0 : Z) (s : State) :
  valid_store d → reachable (initial d c now0) s → valid_store (db (w s)).
Proof.
  intros H Hreach. revert s Hreach.
  apply (reachable_ind _ (fun x => valid_store (db (w x)))); [exact H |].
  intros l x x'. apply valid_store_step.
Qed.

End ValidStore.

(** * The claims *)

(** C1: in every state the worker reaches from a store with valid statuses,
    the processor handles the identifier at the head of the queue by running
    [autoCompleteTask] on it: it first re-fetches the task, and it sends the
    conditional update exactly when the fetch finds the task with status
    pending or in_progress; the update then completes the row and sets its
    updated_at to the time of the write. When the status read is completed,
    nothing is sent after the fetch and the store is unchanged. The update
    itself, run on any store at any time, leaves every completed row as it
    is, and so does every step of the worker; when the update matches no row
    it changes nothing and returns no error. *)
Theorem autoCompleteTask_conditional (d0 : DB) (c : Config) (now0 : Z) (s : State)
    (taskID : string) (q : list string) :
  valid_store d0 →
  reachable (initial d0 c now0) s →
  processor s = PSelect →
  panicked s = false →
  taskChannel (w s) = taskID :: q →
  let d := db (w s) in
  let o := autoCompleteTask d (now s) taskID in
  (∃ ls s',
     (ls = [LProcessor (Some CaseRecv)] ∨
      ls = [LProcessor (Some CaseRecv); LProcessor None]) ∧
     run ls s = Some s' ∧ processor s' = PSelect ∧ panicked s' = false ∧
     taskChannel (w s') = q ∧ db (w s') = out_db o ∧
     calls s' = (calls s ++ out_calls o)%list ∧
     logs s' = (logs s ++ out_logs o)%list) ∧
  (∃ rest, out_calls o = QueryTask taskID :: rest) ∧
  (In (ExecComplete taskID) (out_calls o) ↔
     ∃ t, GetTaskByID d taskID = (Some t, None) ∧
          (Status t = "pending" ∨ Status t = "in_progress")) ∧
  (∀ t, GetTaskByID d taskID = (Some t, None) →
        Status t = "pending" ∨ Status t = "in_progress" →
        tasks (out_db o) = List.map (complete_row (now s) taskID) (tasks d) ∧
        In (mkTask (ID t) (UserID t) (Title t) (Description t) "completed"
                   (CreatedAt t) (now s)) (tasks (out_db o)) ∧
        out_logs o = [LogAutoCompleted taskID]) ∧
  (∀ t, GetTaskByID d taskID = (Some t, None) → Status t = "completed" →
        out_db o = d ∧ out_calls o = [QueryTask taskID] ∧
        out_logs o = [LogAlreadyCompleted taskID]) ∧
  (∀ d' now', Forall2 (fun r r' => Status r = "completed" → r' = r)
                (tasks d') (tasks (fst (AutoCompleteTask d' now' taskID)))) ∧
  (∀ l x x', (∀ op, l ≠ LEnv op) → step l x = Some x' →
        Forall2 (fun r r' => Status r = "completed" → r' = r)
                (tasks (db (w x))) (tasks (db (w x')))) ∧
  (∀ d' now', conn_err d' = None →
        (∀ r, In r (tasks d') → ID r = taskID → status_open (Status r) = false) →
        tasks (fst (AutoCompleteTask d' now' taskID)) = tasks d' ∧
        snd (AutoCompleteTask d' now' taskID) = None ∧
        snd (autoCompleteTask_update d' now' taskID) = LogAutoCompleted taskID).
Proof.
  intros Hv0 Hreach Hpc Hpanic Hq d o. subst o d.
  set (d := db (w s)). set (o := autoCompleteTask d (now s) taskID).
  assert (Hv : valid_store d) by exact (valid_store_reachable d0 c now0 s Hv0 Hreach).
  assert (Hguard : ∀ d' now', Forall2 (fun r r' => Status r = "completed" → r' = r)
                (tasks d') (tasks (fst (AutoCompleteTask d' now' taskID))))
    by (intros; apply completed_rows_kept).
  assert (Hnoop : ∀ d' now', conn_err d' = None →
        (∀ r, In r (tasks d') → ID r = taskID → status_open (Status r) = false) →
        tasks (fst (AutoCompleteTask d' now' taskID)) = tasks d' ∧
        snd (AutoCompleteTask d' now' taskID) = None ∧
        snd (autoCompleteTask_update d' now' taskID) = LogAutoCompleted taskID)
    by (intros; now apply AutoCompleteTask_noop).
  split.
  { destruct (processor_runs_autoCompleteTask s taskID q Hpc Hpanic Hq)
      as (ls & s' & Hls & Hrun & Hpc' & Hpanic' & _ & Hdb' & Hcalls & Hlogs & Hq').
    exists ls, s'. auto 10. }
  destruct (GetTaskByID d taskID) as [ot oe] eqn:Hget.
  destruct oe as [e |].
  - (* the fetch fails *)
    assert (Ho : o = mkOutcome d [LogNotFound taskID e] [QueryTask taskID] false).
    { subst o. unfold autoCompleteTask, autoCompleteTask_fetch. rewrite Hget. now destruct ot. }
    rewrite Ho. simpl.
    refine (conj _ (conj _ (conj _ (conj _ (conj Hguard (conj worker_keeps_completed Hnoop)))))).
    + eauto.
    + split; [intros [Hc | []]; discriminate | intros (t & Ht & _); discriminate].
    + intros t Ht. discriminate.
    + intros t Ht. discriminate.
  - destruct ot as [t |].
    2:{ destruct (GetTaskByID_cases d taskID) as [(e & _ & H) | [(_ & H & _) | (t & H)]];
          congruence. }
    assert (Hvalid : services.is_valid_status (Status t) = true).
    { destruct (GetTaskByID_found d taskID t Hget) as (_ & Hin & _).
      unfold valid_store in Hv. rewrite Forall_forall in Hv. apply Hv.
      now apply list_elem_of_In. }
    destruct (autoCompleteTask_guarded d (now s) taskID t Hget Hvalid)
      as (Hfirst & Hiff & Hopen & Hdone).
    fold o in Hfirst, Hiff, Hopen, Hdone.
    refine (conj Hfirst (conj _ (conj _ (conj _ (conj Hguard (conj worker_keeps_completed Hnoop)))))).
    + rewrite Hiff. split; [eauto |]. intros (t' & [= <-] & Hs). exact Hs.
    + intros t' [= <-]. exact Hopen.
    + intros t' [= <-]. exact Hdone.
Qed.

Lemma autoCompleteTask_conditional_witness :
  tasks (out_db (autoCompleteTask db1 0 "t1")) =
    [mkTask "t1" "u1" "title" "text" "completed" 0 0].
Proof.
  destruct (autoCompleteTask_conditional db1 cfg1 0 submitted "t1" [])
    as (_ & _ & _ & Hopen & _).
  - repeat constructor.
  - exists [LSubmit "t1"; LSubmitter 0 (CaseSend "t1")]. reflexivity.
  - reflexivity.
  - reflexivity.
  - reflexivity.
  - destruct (Hopen task1 eq_refl (or_introl eq_refl)) as (Hmap & _). exact Hmap.
Defined.

(** C2: the code does not drain the queue on shutdown. [shutdown_run] ends
    with [Stop] returned, both goroutines gone, and "t1" still in the
    queue: it was never fetched, and its task is still pending. In any
    state the processor at its select may take the stop case once shutdown
    is signalled, whatever the queue holds, and it leaves the queue as it
    is; and [Stop] returns only after both goroutines have returned, so
    nothing is dequeued afterwards. *)
Theorem Stop_leaves_queue_unprocessed :
  (∃ s, run shutdown_run (initial db1 cfg1 0) = Some s ∧
        stopper s = StopReturned ∧ scanner s = SDone ∧ processor s = PDone ∧
        taskChannel (w s) = ["t1"] ∧ taskChannelClosed (w s) = true ∧
        tasks (db (w s)) = [task1] ∧ calls s = [QueryEligible 30] ∧
        logs s = [LogStarting; LogStarted; LogQueued "t1"; LogStopping; LogStopped]) ∧
  (∀ s, panicked s = false → processor s = PSelect → stopChannel (w s) = true →
        ∃ s', step (LProcessor (Some CaseStop)) s = Some s' ∧
              processor s' = PDone ∧
              taskChannel (w s') = taskChannel (w s) ∧ db (w s') = db (w s) ∧
              calls s' = calls s) ∧
  (∀ d c now0 s, reachable (initial d c now0) s → stopper s = StopReturned →
                 scanner s = SDone ∧ processor s = PDone).
Proof.
  split; [| split].
  - eexists. split; [vm_compute; reflexivity |]. repeat split; reflexivity.
  - intros s Hpanic Hpc Hstop. unfold step. rewrite Hpanic.
    unfold processor_step. rewrite Hpc, fires_intro.
    + eexists. split; [reflexivity |]. simpl. auto.
    + apply in_select_processTasksFromChannel. now left.
    + exact Hstop.
  - apply Stop_returns_after_loops.
Qed.

(** C3, as the code has it: in every state the worker reaches, the
    identifiers with an entry in [processedTasks] are the one the scanner
    has marked and is about to send, and those the scanner has queued at
    some time before. When the send times out the entry is deleted, and a
    task without an entry is marked and sent when the scanner comes to it.
    Once an identifier has been queued its entry stays for the rest of the
    run, whatever the processor does with the identifier; the scanner then
    passes over every task with that identifier, and queues no identifier
    twice. *)
Theorem processedTasks_marks (d : DB) (c : Config) (now0 : Z) (s : State) :
  reachable (initial d c now0) s →
  (∀ id, is_Some (processedTasks (w s) !! id) ↔
         In id (queued (logs s)) ∨ sending s = Some id) ∧
  (∀ id e r x s',
     scanner s = SSend id e r →
     step (LScanner (Some (CaseAfter x))) s = Some s' →
     processedTasks (w s') !! id = None ∧ scanner s' = SLoop r ∧
     taskChannel (w s') = taskChannel (w s) ∧ logs s' = logs s) ∧
  (∀ t rest s',
     scanner s = SLoop (t :: rest) →
     processedTasks (w s) !! ID t = None →
     step (LScanner None) s = Some s' →
     scanner s' = SSend (ID t) (now s) rest ∧
     processedTasks (w s') = <[ID t := true]> (processedTasks (w s))) ∧
  (∀ t rest s',
     scanner s = SLoop (t :: rest) →
     is_Some (processedTasks (w s) !! ID t) →
     step (LScanner None) s = Some s' →
     s' = set_scanner (SLoop rest) s) ∧
  (∀ id s',
     In id (queued (logs s)) → reachable s s' →
     In id (queued (logs s')) ∧ processedTasks (w s') !! id = Some true) ∧
  NoDup (queued (logs s)).
Proof.
  intros Hreach.
  destruct (marks_inv_reachable d c now0 s Hreach) as (I1 & I2 & I3 & I4).
  refine (conj _ (conj _ (conj _ (conj _ (conj _ I4))))).
  - intros id. split; [apply I2 |].
    intros [Hin | Hsend]; [rewrite (I1 id Hin) | rewrite (proj2 (I3 id Hsend))];
      eexists; reflexivity.
  - intros id e r x s' Hpc Hstep. unfold step in Hstep.
    destruct (panicked s); [discriminate |].
    unfold scanner_step in Hstep. rewrite Hpc in Hstep.
    destruct (fires s e (select_findAndQueueTasks id) (CaseAfter x));
      [| discriminate].
    injection Hstep as <-. simpl. rewrite lookup_delete_eq. auto.
  - intros t rest s' Hpc Hnone Hstep. unfold step in Hstep.
    destruct (panicked s); [discriminate |].
    unfold scanner_step in Hstep. rewrite Hpc, Hnone in Hstep.
    injection Hstep as <-. auto.
  - intros t rest s' Hpc [b Hsome] Hstep. unfold step in Hstep.
    destruct (panicked s); [discriminate |].
    unfold scanner_step in Hstep. rewrite Hpc, Hsome in Hstep.
    now injection Hstep as <-.
  - intros id s' Hin Hreach'.
    assert (Hin' : In id (queued (logs s'))) by exact (queued_grows s s' Hreach' id Hin).
    split; [exact Hin' |].
    assert (Hr : reachable (initial d c now0) s')
      by exact (reachable_trans _ _ _ Hreach Hreach').
    destruct (marks_inv_reachable d c now0 s' Hr) as (I1' & _). auto.
Qed.

Lemma processedTasks_marks_witness :
  ∃ s, run rediscovery_run (initial db1 cfg1 0) = Some s ∧
       NoDup (queued (logs s)) ∧
       (is_Some (processedTasks (w s) !! "t1") ↔
        In "t1" (queued (logs s)) ∨ sending s = Some "t1").
Proof.
  eexists. split; [vm_compute; reflexivity |].
  match goal with
  | |- NoDup (queued (logs ?s)) ∧ _ =>
      destruct (processedTasks_marks db1 cfg1 0 s
                  (ex_intro _ rediscovery_run eq_refl)) as (Hiff & _ & _ & _ & _ & Hnd)
  end.
  split; [exact Hnd | exact (Hiff "t1")].
Defined.

(** C3, as the claim states it, fails: [rediscovery_run] ends in a state in
    which "t1" has an entry although it is not in the queue, the scanner is
    not sending it and the processor is done with it; the task is still
    pending, the second scan has found it again, and it has not been queued
    a second time. *)
Lemma mark_outlives_processing :
  ∃ s, run rediscovery_run (initial db1 cfg1 0) = Some s ∧
       processedTasks (w s) !! "t1" = Some true ∧
       taskChannel (w s) = [] ∧
       scanner s = SSelect ∧ processor s = PSelect ∧
       tasks (db (w s)) = [task1] ∧
       calls s = [QueryEligible 30; QueryTask "t1"; QueryEligible 30] ∧
       queued (logs s) = ["t1"] ∧
       ¬ (is_Some (processedTasks (w s) !! "t1") →
          In "t1" (taskChannel (w s)) ∨ sending s = Some "t1" ∨
          processor s = PExec "t1").
Proof.
  eexists. split; [vm_compute; reflexivity |].
  repeat (split; [reflexivity |]).
  intros H. destruct H as [[] | [H | H]]; [eexists; reflexivity | |]; discriminate.
Qed.

(** C4: when the identifier at the head of the queue names a task that is
    gone (the fetch reports not found) or that is completed, the processor
    takes it off the queue, sends the store nothing but the fetch, leaves
    the store as it is, writes one log line, does not panic, and is back at
    its select. *)
Theorem autoCompleteTask_skips (s : State) (taskID : string) (q : list string) :
  processor s = PSelect →
  panicked s = false →
  taskChannel (w s) = taskID :: q →
  GetTaskByID (db (w s)) taskID = (None, Some "task not found") ∨
    (∃ t, GetTaskByID (db (w s)) taskID = (Some t, None) ∧ Status t = "completed") →
  (let o := autoCompleteTask (db (w s)) (now s) taskID in
   out_db o = db (w s) ∧ out_calls o = [QueryTask taskID] ∧ out_panic o = false ∧
   (out_logs o = [LogNotFound taskID "task not found"] ∨
    out_logs o = [LogAlreadyCompleted taskID])) ∧
  ∃ s', step (LProcessor (Some CaseRecv)) s = Some s' ∧
        processor s' = PSelect ∧ panicked s' = false ∧
        db (w s') = db (w s) ∧ taskChannel (w s') = q ∧
        calls s' = (calls s ++ [QueryTask taskID])%list ∧
        (logs s' = (logs s ++ [LogNotFound taskID "task not found"])%list ∨
         logs s' = (logs s ++ [LogAlreadyCompleted taskID])%list) ∧
        scanner s' = scanner s ∧ stopper s' = stopper s ∧
        processedTasks (w s') = processedTasks (w s).
Proof.
  intros Hpc Hpanic Hq Hskip.
  assert (Hre : autoCompleteTask_fetch (db (w s)) taskID = FetchSkip (LogNotFound taskID "task not found")
              ∨ autoCompleteTask_fetch (db (w s)) taskID = FetchSkip (LogAlreadyCompleted taskID)).
  { unfold autoCompleteTask_fetch. destruct Hskip as [-> | (t & -> & Hs)]; [now left |].
    right. rewrite Hs. reflexivity. }
  split.
  - unfold autoCompleteTask. destruct Hre as [-> | ->]; simpl; auto.
  - unfold step. rewrite Hpanic. unfold processor_step. rewrite Hpc.
    rewrite fires_intro.
    + eexists. split; [reflexivity |]. unfold processor_recv. rewrite Hq. simpl.
      destruct Hre as [-> | ->]; simpl; rewrite ?Hpc, ?Hpanic; repeat split; auto.
    + apply list_elem_of_In. simpl. auto.
    + unfold ready. rewrite Hq. reflexivity.
Qed.

Lemma autoCompleteTask_skips_witness :
  ∃ s', step (LProcessor (Some CaseRecv))
             (set_taskChannel ["gone"] (initial db1 cfg1 0)) = Some s' ∧
        processor s' = PSelect ∧ panicked s' = false ∧ db (w s') = db1.
Proof.
  destruct (autoCompleteTask_skips (set_taskChannel ["gone"] (initial db1 cfg1 0))
              "gone" [] eq_refl eq_refl eq_refl (or_introl eq_refl))
    as (_ & s' & Hstep & Hpc & Hpanic & Hdb & _).
  exists s'. auto.
Defined.

(** C5: on a scan tick the scanner sends the eligibility query with the
    configured delay, and when the query succeeds the candidates it goes on
    with are exactly the rows of the store, in store order, whose status is
    pending or in_progress and whose created_at is strictly before [now]
    minus [AutoCompleteMinutes] minutes; a completed row, and a row created
    at or after that cutoff, is not among them. *)
Theorem scan_candidates_exact (s s' : State) :
  scanner s = SSelect →
  conn_err (db (w s)) = None →
  step (LScanner (Some CaseTick)) s = Some s' →
  let cutoff := now s - time.Minute * AutoCompleteMinutes (cfg (w s)) in
  ∃ ts,
    scanner s' = SLoop ts ∧
    GetTasksForAutoCompletion (db (w s)) (now s) (AutoCompleteMinutes (cfg (w s)))
      = (ts, None) ∧
    ts = List.filter (eligible (now s) (AutoCompleteMinutes (cfg (w s))))
                     (tasks (db (w s))) ∧
    (∀ t, In t ts ↔
          In t (tasks (db (w s))) ∧
          (Status t = "pending" ∨ Status t = "in_progress") ∧
          CreatedAt t < cutoff) ∧
    (∀ t, In t ts → Status t ≠ "completed") ∧
    (∀ t, cutoff ≤ CreatedAt t → ¬ In t ts).
Proof.
  intros Hpc Hconn Hstep cutoff.
  unfold step in Hstep. destruct (panicked s); [discriminate |].
  unfold scanner_step in Hstep. rewrite Hpc in Hstep.
  destruct (fires s 0 select_checkAndQueueTasks CaseTick); [| discriminate].
  injection Hstep as <-.
  unfold findAndQueueTasks_query. simpl.
  rewrite (GetTasksForAutoCompletion_ok _ _ _ Hconn).
  eexists. split; [reflexivity |]. split; [reflexivity |]. split; [reflexivity |].
  assert (Hin : ∀ t,
    In t (List.filter (eligible (now s) (AutoCompleteMinutes (cfg (w s))))
            (tasks (db (w s)))) ↔
    In t (tasks (db (w s))) ∧
    (Status t = "pending" ∨ Status t = "in_progress") ∧ CreatedAt t < cutoff).
  { intros t. rewrite List.filter_In, eligible_spec. reflexivity. }
  split; [exact Hin |]. split.
  - intros t Ht. apply Hin in Ht as (_ & [Hs | Hs] & _); rewrite Hs; discriminate.
  - intros t Hle Ht. apply Hin in Ht as (_ & _ & Hlt). lia.
Qed.

Lemma scan_candidates_exact_witness :
  ∃ s', step (LScanner (Some CaseTick))
          (set_ticker true 0 (set_now (31 * time.Minute) (initial db1 cfg1 0)))
        = Some s' ∧ scanner s' = SLoop [task1].
Proof.
  eexists. split; [reflexivity |].
  destruct (scan_candidates_exact
              (set_ticker true 0 (set_now (31 * time.Minute) (initial db1 cfg1 0)))
              _ eq_refl eq_refl eq_refl) as (ts & Hpc & _ & Hts & _).
  rewrite Hpc, Hts. reflexivity.
Defined.

(** C6, as the code has it: the select of the scanner's timer wait and the
    select of the processor's dequeue both have the stop case, so each can
    complete as soon as shutdown is signalled, and the goroutine then
    returns. The select of the scanner's enqueue and the select of
    [SubmitTask] wait for the send and for a timer only (100 milliseconds
    and 5 seconds); they have no stop case, and they complete exactly when
    the queue takes the identifier or the timer has run out. *)
Theorem stop_case_where_present (s : State) (entered : Z) (id : string) :
  (CaseStop ∈ select_checkAndQueueTasks ∧ CaseStop ∈ select_processTasksFromChannel) ∧
  (stopChannel (w s) = true →
     fires s entered select_checkAndQueueTasks CaseStop = true ∧
     fires s entered select_processTasksFromChannel CaseStop = true) ∧
  (panicked s = false → stopChannel (w s) = true → scanner s = SSelect →
     ∃ s', step (LScanner (Some CaseStop)) s = Some s' ∧ scanner s' = SDone) ∧
  (panicked s = false → stopChannel (w s) = true → processor s = PSelect →
     ∃ s', step (LProcessor (Some CaseStop)) s = Some s' ∧ processor s' = PDone) ∧
  ((CaseStop ∉ select_findAndQueueTasks id) ∧ (CaseStop ∉ select_SubmitTask id)) ∧
  (∀ c, fires s entered (select_findAndQueueTasks id) c = true ↔
        (c = CaseSend id ∧ ready s entered (CaseSend id) = true) ∨
        (c = CaseAfter (100 * time.Millisecond) ∧
         entered + 100 * time.Millisecond ≤ now s)) ∧
  (∀ c, fires s entered (select_SubmitTask id) c = true ↔
        (c = CaseSend id ∧ ready s entered (CaseSend id) = true) ∨
        (c = CaseAfter (5 * time.Second) ∧ entered + 5 * time.Second ≤ now s)).
Proof.
  assert (Hin1 : CaseStop ∈ select_checkAndQueueTasks)
    by (apply in_select_checkAndQueueTasks; now left).
  assert (Hin2 : CaseStop ∈ select_processTasksFromChannel)
    by (apply in_select_processTasksFromChannel; now left).
  split; [now split |]. split; [| split; [| split; [| split; [| split]]]].
  - intros Hstop. split; apply fires_intro; auto.
  - intros Hpanic Hstop Hpc. unfold step. rewrite Hpanic.
    unfold scanner_step. rewrite Hpc, fires_intro by auto. eauto.
  - intros Hpanic Hstop Hpc. unfold step. rewrite Hpanic.
    unfold processor_step. rewrite Hpc, fires_intro by auto. eauto.
  - rewrite in_select_findAndQueueTasks, in_select_SubmitTask.
    split; intros [H | H]; discriminate.
  - intros c. rewrite fires_spec, in_select_findAndQueueTasks. split.
    + intros [[-> | ->] Hr]; [now left | right].
      split; [reflexivity | now apply Z.leb_le in Hr].
    + intros [[-> Hr] | [-> Hr]]; (split; [tauto |]); [exact Hr |].
      now apply Z.leb_le.
  - intros c. rewrite fires_spec, in_select_SubmitTask. split.
    + intros [[-> | ->] Hr]; [now left | right].
      split; [reflexivity | now apply Z.leb_le in Hr].
    + intros [[-> Hr] | [-> Hr]]; (split; [tauto |]); [exact Hr |].
      now apply Z.leb_le.
Qed.

(** C6, as the claim states it, fails: after [saturating_run] shutdown has
    been signalled, the scanner waits at its enqueue select and a caller at
    the select of [SubmitTask]; neither select has the stop case, the queue
    is full and no timer has run out, so neither of them can take a step. *)
Lemma send_selects_ignore_stop :
  run saturating_run (initial db1 cfg1 0) = Some saturated ∧
  stopChannel (w saturated) = true ∧
  scanner saturated = SSend "t1" (now saturated) [] ∧
  submits saturated = [("t2", now saturated)] ∧
  (CaseStop ∉ select_findAndQueueTasks "t1") ∧
  (CaseStop ∉ select_SubmitTask "t2") ∧
  (∀ c, step (LScanner c) saturated = None) ∧
  (∀ c, step (LSubmitter 0 c) saturated = None).
Proof.
  split; [vm_compute; reflexivity |].
  split; [reflexivity |]. split; [reflexivity |]. split; [reflexivity |].
  split; [rewrite in_select_findAndQueueTasks; intros [H | H]; discriminate |].
  split; [rewrite in_select_SubmitTask; intros [H | H]; discriminate |].
  split; intros c.
  - apply (enqueue_blocked saturated "t1" (31 * time.Minute) []);
      [reflexivity | reflexivity | vm_compute; reflexivity].
  - apply (submit_blocked saturated 0 "t2" (31 * time.Minute));
      [reflexivity | reflexivity | vm_compute; reflexivity].
Qed.

(** C7: when the scanner takes a tick and the eligibility query returns an
    error, the step writes the error to the log and changes nothing else
    but the consumed tick: the queue, the in-flight set, the store and the
    wait group are as before, and the scanner is back at its select, where
    the next tick is taken again; no step other than the stop case of that
    select makes the scanner return. *)
Theorem scan_error_skips_tick (s : State) (e : error) :
  scanner s = SSelect →
  panicked s = false →
  tickerC s = true →
  snd (GetTasksForAutoCompletion (db (w s)) (now s)
         (AutoCompleteMinutes (cfg (w s)))) = Some e →
  ∃ s',
    step (LScanner (Some CaseTick)) s = Some s' ∧
    logs s' = (logs s ++ [LogFetchError e])%list ∧
    w s' = w s ∧
    scanner s' = SSelect ∧ processor s' = processor s ∧ stopper s' = stopper s ∧
    panicked s' = false ∧ submits s' = submits s ∧
    tickerC s' = false ∧ nextTick s' = nextTick s ∧ now s' = now s ∧
    (∀ dt, 0 < dt → nextTick s' ≤ now s' + dt →
       ∃ s1 s2, run [LAdvance dt; LTicker] s' = Some s1 ∧
                step (LScanner (Some CaseTick)) s1 = Some s2) ∧
    (∀ l x x', step l x = Some x' → scanner x' = SDone →
       scanner x = SDone ∨ (l = LScanner (Some CaseStop) ∧ stopChannel (w x) = true)).
Proof.
  intros Hpc Hpanic Htick Herr.
  unfold step. rewrite Hpanic. unfold scanner_step. rewrite Hpc.
  rewrite fires_intro;
    [| apply in_select_checkAndQueueTasks; now right | exact Htick].
  eexists. split; [reflexivity |].
  unfold findAndQueueTasks_query. simpl.
  destruct (GetTasksForAutoCompletion _ _ _) as [ts [e' |]]; simpl in Herr;
    [| discriminate].
  injection Herr as ->. simpl. rewrite Hpc, Hpanic.
  repeat (split; [reflexivity |]). split.
  - intros dt Hdt Hnext. unfold step. simpl. rewrite Hpanic.
    destruct (0 <? dt) eqn:Hd; [| lia]. simpl. rewrite Hpanic. simpl.
    destruct (nextTick s <=? now s + dt) eqn:Hn; [| lia]. rewrite Hpc.
    eexists _, _. split; [reflexivity |].
    simpl. rewrite Hpanic. unfold scanner_step. simpl.
    rewrite Hpc. reflexivity.
  - apply scanner_exits_on_stop_only.
Qed.

Lemma scan_error_skips_tick_witness :
  ∃ s', step (LScanner (Some CaseTick))
             (set_ticker true 60 (initial (mkDB [task1] (Some "connection refused")) cfg1 0))
        = Some s' ∧
        logs s' = [LogStarting; LogStarted; LogFetchError "connection refused"] ∧
        scanner s' = SSelect.
Proof.
  destruct (scan_error_skips_tick
              (set_ticker true 60 (initial (mkDB [task1] (Some "connection refused")) cfg1 0))
              "connection refused" eq_refl eq_refl eq_refl eq_refl)
    as (s' & Hstep & Hlogs & _ & Hpc & _).
  exists s'. auto.
Defined.

(** C8: a call of [SubmitTask] that waits at its select. When the queue
    takes the identifier, the call returns nil and the identifier is at the
    back of the queue; an open queue with room does take it. While the
    queue is full, so that the send cannot proceed, the call has no way out
    before 5 seconds have passed since it entered; from then on its only
    way out is the timer case, through which it returns [ErrChannelFull]
    ("task queue is full") and leaves the worker as it is. Whatever the
    queue does, once the 5 seconds have passed the timer case can be
    taken, so the call is not blocked. The 5 seconds are more than the 100
    milliseconds of the scanner's send. *)
Theorem SubmitTask_bounded (s : State) (k : nat) (taskID : string) (entered : Z) :
  panicked s = false →
  submits s !! k = Some (taskID, entered) →
  (∀ s', step (LSubmitter k (CaseSend taskID)) s = Some s' → panicked s' = false →
         returns s' = (returns s ++ [(taskID, None)])%list ∧
         taskChannel (w s') = (taskChannel (w s) ++ [taskID])%list ∧
         logs s' = (logs s ++ [LogSubmitted taskID])%list) ∧
  ((List.length (taskChannel (w s)) < taskChannelCap)%nat →
   taskChannelClosed (w s) = false →
   ∃ s', step (LSubmitter k (CaseSend taskID)) s = Some s' ∧ panicked s' = false) ∧
  (ready s entered (CaseSend taskID) = false →
     (now s < entered + 5 * time.Second → ∀ c, step (LSubmitter k c) s = None) ∧
     (entered + 5 * time.Second ≤ now s →
        ∀ c s', step (LSubmitter k c) s = Some s' →
                c = CaseAfter (5 * time.Second) ∧
                returns s' = (returns s ++ [(taskID, Some ErrChannelFull)])%list ∧
                w s' = w s ∧ panicked s' = false)) ∧
  (entered + 5 * time.Second ≤ now s →
     ∃ s', step (LSubmitter k (CaseAfter (5 * time.Second))) s = Some s' ∧
           returns s' = (returns s ++ [(taskID, Some ErrChannelFull)])%list ∧
           w s' = w s ∧ panicked s' = false) ∧
  (ready s entered (CaseSend taskID) = false ↔
     (taskChannelCap ≤ List.length (taskChannel (w s)))%nat ∧
     taskChannelClosed (w s) = false) ∧
  ErrChannelFull = "task queue is full" ∧
  100 * time.Millisecond < 5 * time.Second.
Proof.
  intros Hpanic Hk.
  refine (conj _ (conj _ (conj _ (conj _ (conj (ready_send_false s entered taskID)
            (conj eq_refl (proj1 (proj2 durations_positive)))))))).
  - intros s' Hstep Hok. unfold step in Hstep. rewrite Hpanic in Hstep.
    unfold SubmitTask_leave in Hstep. rewrite Hk in Hstep.
    destruct (fires s entered (select_SubmitTask taskID) (CaseSend taskID));
      [| discriminate].
    destruct (taskChannelClosed (w s)); injection Hstep as <-;
      [discriminate Hok | simpl; auto].
  - intros Hroom Hopen. unfold step. rewrite Hpanic.
    unfold SubmitTask_leave. rewrite Hk, fires_intro, Hopen.
    + eexists. split; [reflexivity | exact Hpanic].
    + apply in_select_SubmitTask. now left.
    + now apply ready_send_room.
  - intros Hfull. split.
    + intros Hearly c. now apply (submit_blocked s k taskID entered).
    + intros Hlate c s' Hstep. unfold step in Hstep. rewrite Hpanic in Hstep.
      unfold SubmitTask_leave in Hstep. rewrite Hk in Hstep.
      destruct (fires s entered (select_SubmitTask taskID) c) eqn:F; [| discriminate].
      apply fires_spec in F as [Hin Hready].
      apply in_select_SubmitTask in Hin as [-> | ->]; [congruence |].
      injection Hstep as <-. simpl. auto.
  - intros Hlate. unfold step. rewrite Hpanic. unfold SubmitTask_leave.
    rewrite Hk, fires_intro.
    + eexists. split; [reflexivity |]. simpl. auto.
    + apply in_select_SubmitTask. now right.
    + unfold ready. now apply Z.leb_le.
Qed.

Lemma SubmitTask_bounded_witness :
  ∃ s', step (LSubmitter 0 (CaseSend "t9"))
             (SubmitTask_enter "t9" (initial db1 cfg1 0)) = Some s' ∧
        returns s' = [("t9", None)] ∧ taskChannel (w s') = ["t9"].
Proof.
  destruct (SubmitTask_bounded (SubmitTask_enter "t9" (initial db1 cfg1 0))
              0 "t9" 0 eq_refl eq_refl) as (Hsent & _).
  eexists. split; [reflexivity |].
  destruct (Hsent _ eq_refl eq_refl) as (Hret & Hq & _). split; assumption.
Defined.

(** C9: the auto-completion write keeps the connection and the number and
    order of the rows; every row keeps its id, user_id, title, description
    and created_at; a row with another id than the targeted one is
    unchanged; and a row that does change was a pending or in_progress row
    with the targeted id, whose status becomes completed and whose
    updated_at becomes the time of the write. No other step of the worker
    changes the store. *)
Theorem AutoCompleteTask_frame (d : DB) (now : Z) (taskID : string) :
  conn_err (fst (AutoCompleteTask d now taskID)) = conn_err d ∧
  Forall2 (fun t t' =>
             same_identity t t' ∧
             (ID t ≠ taskID → t' = t) ∧
             (t' ≠ t → ID t = taskID ∧ status_open (Status t) = true ∧
                       Status t' = "completed" ∧ UpdatedAt t' = now))
          (tasks d) (tasks (fst (AutoCompleteTask d now taskID))) ∧
  (∀ l s s', (∀ op, l ≠ LEnv op) → step l s = Some s' →
     db (w s') = db (w s) ∨
     ∃ id, l = LProcessor None ∧ processor s = PExec id ∧
           db (w s') = fst (AutoCompleteTask (db (w s)) (worker.now s) id)).
Proof.
  split; [apply AutoCompleteTask_conn |].
  split; [| intros l s s'; apply worker_steps_store].
  rewrite AutoCompleteTask_tasks. destruct (conn_err d).
  - induction (tasks d) as [| t l IH]; constructor; auto.
    split; [unfold same_identity; tauto |].
    split; [reflexivity | intros Hne; congruence].
  - induction (tasks d) as [| t l IH]; simpl; constructor; auto.
    split; [apply complete_row_identity |].
    split; [apply complete_row_other | apply complete_row_changed].
Qed.

(** C10, as the code has it: when the variable behind [getEnvInt] is set to
    a non-empty string for which [strconv.Atoi] reports a syntax error (as
    it does for every string of fewer than 19 bytes that is not an
    optionally signed decimal numeral), the error is dropped and the result
    is 0, not the default; for AUTO_COMPLETE_MINUTES the delay of the
    worker is then 0 minutes, and the eligibility query selects every
    pending or in_progress row created before the time of the scan. *)
Theorem getEnvInt_malformed_zero (env : gmap string string) (key value : string)
    (defaultValue : Z) :
  env !! key = Some value →
  value ≠ "" →
  snd (strconv.Atoi value) = Some strconv.ErrSyntax ∨
    ((String.length value < 19)%nat ∧ decimal_numeral value = false) →
  getEnvInt env key defaultValue = 0 ∧
  (key = "JWT_EXPIRY_HOURS" → JWTExpiryHours (LoadConfig env) = 0) ∧
  (key = "AUTO_COMPLETE_MINUTES" →
     AutoCompleteMinutes (LoadConfig env) = 0 ∧
     ∀ (d : DB) (now : Z) (t : Task),
       conn_err d = None →
       (In t (fst (GetTasksForAutoCompletion d now
                     (AutoCompleteMinutes (LoadConfig env)))) ↔
        In t (tasks d) ∧ (Status t = "pending" ∨ Status t = "in_progress") ∧
        CreatedAt t < now)).
Proof.
  intros Hk Hne Hbad.
  assert (H0 : ∀ d, getEnvInt env key d = 0).
  { intros d. rewrite (getEnvInt_set env key value d Hk Hne).
    destruct Hbad as [Hsyn | [Hlen Hnum]].
    - now apply Atoi_syntax_zero.
    - now rewrite (Atoi_short_malformed value Hlen Hnum). }
  split; [apply H0 |]. split.
  - intros ->. apply H0.
  - intros ->. assert (Hm : AutoCompleteMinutes (LoadConfig env) = 0) by apply H0.
    split; [exact Hm |]. intros d now t Hconn. rewrite Hm.
    rewrite (GetTasksForAutoCompletion_ok d now 0 Hconn). simpl.
    rewrite List.filter_In, eligible_spec.
    replace (now - time.Minute * 0) with now by lia. reflexivity.
Qed.

Lemma getEnvInt_malformed_zero_witness :
  getEnvInt {[ "AUTO_COMPLETE_MINUTES" := "soon" ]} "AUTO_COMPLETE_MINUTES" 30 = 0.
Proof.
  refine (proj1 (getEnvInt_malformed_zero
                   {[ "AUTO_COMPLETE_MINUTES" := "soon" ]}
                   "AUTO_COMPLETE_MINUTES" "soon" 30 _ _ _)).
  - reflexivity.
  - discriminate.
  - left. reflexivity.
Defined.

(** C10, as the claim states it, fails: a value whose digits overflow 64
    bits makes [Atoi] report a range error, also when bytes that are no
    digits follow; the error is dropped all the same, and the result is the
    largest (or smallest) 64-bit integer, not 0. *)
Lemma getEnvInt_range_not_zero :
  ¬ (∀ (env : gmap string string) (key value : string) (defaultValue : Z),
       env !! key = Some value → value ≠ "" →
       decimal_numeral value = false →
       snd (strconv.Atoi value) ≠ None →
       getEnvInt env key defaultValue = 0)
  ∧ getEnvInt {[ "AUTO_COMPLETE_MINUTES" := "99999999999999999999x" ]}
              "AUTO_COMPLETE_MINUTES" 30 = 9223372036854775807
  ∧ getEnvInt {[ "AUTO_COMPLETE_MINUTES" := "99999999999999999999" ]}
              "AUTO_COMPLETE_MINUTES" 30 = 9223372036854775807
  ∧ getEnvInt {[ "JWT_EXPIRY_HOURS" := "-99999999999999999999" ]}
              "JWT_EXPIRY_HOURS" 24 = -9223372036854775808.
Proof.
  split; [| repeat split; reflexivity].
  intros H.
  specialize (H {[ "AUTO_COMPLETE_MINUTES" := "99999999999999999999x" ]}
                "AUTO_COMPLETE_MINUTES" "99999999999999999999x" 30).
  discriminate H; [reflexivity | discriminate | reflexivity | discriminate].
Qed.


(** * Further properties of the code *)

(** ** The task table *)

Section Table.


Lemma find_id_absent (l : list Task) (id : string) :
  (∀ r, In r l → ID r ≠ id) →
  List.find (fun t => String.eqb (ID t) id) l = None.
Proof.
  induction l as [| x l IH]; simpl; intros H; [reflexivity |].
  destruct (String.eqb_spec (ID x) id) as [Heq | _].
  - exfalso. apply (H x); auto.
  - apply IH. intros r Hr. apply H. auto.
Qed.

Lemma find_id_filter_other (l : list Task) (id id' : string) :
  id' ≠ id →
  List.find (fun t => String.eqb (ID t) id')
            (List.filter (fun t => negb (String.eqb (ID t) id)) l) =
  List.find (fun t => String.eqb (ID t) id') l.
Proof.
  intros Hne. induction l as [| x l IH]; simpl; [reflexivity |].
  destruct (String.eqb_spec (ID x) id) as [Heq | Hx]; simpl.
  - destruct (String.eqb_spec (ID x) id') as [Heq' | _]; [congruence | exact IH].
  - now rewrite IH.
Qed.

Lemma find_id_map (f : Task → Task) (l : list Task) (id : string) :
  (∀ t, ID (f t) = ID t) →
  List.find (fun t => String.eqb (ID t) id) (List.map f l) =
  option_map f (List.find (fun t => String.eqb (ID t) id) l).
Proof.
  intros Hf. induction l as [| x l IH]; simpl; [reflexivity |].
  rewrite Hf. destruct (String.eqb (ID x) id); auto.
Qed.

Lemma complete_row_id (now : Z) (taskID : string) (t : Task) :
  ID (complete_row now taskID t) = ID t.
Proof. apply complete_row_identity. Qed.

Lemma complete_row_not_open (now : Z) (taskID : string) (t : Task) :
  ID t = taskID → status_open (Status (complete_row now taskID t)) = false.
Proof.
  intros Hid. unfold complete_row.
  apply String.eqb_eq in Hid. rewrite Hid. simpl.
  destruct (status_open (Status t)) eqn:E; [reflexivity | exact E].
Qed.

Lemma complete_row_twice (n1 n2 : Z) (taskID : string) (t : Task) :
  complete_row n2 taskID (complete_row n1 taskID t) = complete_row n1 taskID t.
Proof.
  destruct (String.eqb_spec (ID t) taskID) as [Hid | Hne].
  - apply complete_row_closed. now apply complete_row_not_open.
  - apply complete_row_other. now rewrite complete_row_id.
Qed.

End Table.





Section Update.


End Update.



(** X4: [AutoCompleteTask] is idempotent: running it a second time for the
    same identifier, at whatever time, changes nothing more, so the
    [updated_at] of the first run stays. On a working connection no row
    with that identifier is a candidate of the eligibility query
    afterwards, for any time and any delay. *)
Theorem AutoCompleteTask_idempotent (d : DB) (n1 n2 : Z) (taskID : string) :
  fst (AutoCompleteTask (fst (AutoCompleteTask d n1 taskID)) n2 taskID) =
    fst (AutoCompleteTask d n1 taskID) ∧
  (conn_err d = None →
   ∀ now minutes t,
     In t (fst (GetTasksForAutoCompletion (fst (AutoCompleteTask d n1 taskID))
                  now minutes)) →
     ID t ≠ taskID).
Proof.
  unfold AutoCompleteTask. destruct (conn_err d) as [e |] eqn:Hconn; simpl.
  - rewrite Hconn. split; [reflexivity | discriminate].
  - rewrite Hconn. simpl. split.
    + unfold with_tasks. simpl. f_equal. rewrite List.map_map.
      apply List.map_ext. intros t. apply complete_row_twice.
    + intros _ now minutes t Hin Hid.
      unfold GetTasksForAutoCompletion in Hin. simpl in Hin. rewrite Hconn in Hin.
      simpl in Hin. apply List.filter_In in Hin as [Hin Hel].
      apply List.in_map_iff in Hin as (r & <- & _).
      rewrite complete_row_id in Hid.
      unfold eligible in Hel. rewrite (complete_row_not_open n1 taskID r Hid) in Hel.
      discriminate.
Qed.



Section Ordering.

Lemma insert_desc_perm (t : Task) (l : list Task) : insert_desc t l ≡ₚ t :: l.
Proof.
  induction l as [| x l IH]; simpl; [reflexivity |].
  destruct (CreatedAt x <=? CreatedAt t); [reflexivity |].
  rewrite IH. apply perm_swap.
Qed.

Lemma order_by_created_at_desc_perm (l : list Task) :
  order_by_created_at_desc l ≡ₚ l.
Proof.
  induction l as [| x l IH]; simpl; [reflexivity |].
  rewrite insert_desc_perm. now rewrite IH.
Qed.

Lemma insert_desc_sorted (t : Task) (l : list Task) :
  StronglySorted (fun a b => CreatedAt b ≤ CreatedAt a) l →
  StronglySorted (fun a b => CreatedAt b ≤ CreatedAt a) (insert_desc t l).
Proof.
  induction 1 as [| x l Hl IH Hx]; simpl.
  - repeat constructor.
  - destruct (CreatedAt x <=? CreatedAt t) eqn:E.
    + apply Z.leb_le in E. constructor; [now constructor |].
      constructor; [exact E |].
      eapply Forall_impl; [exact Hx |]. simpl. intros y Hy. lia.
    + apply Z.leb_gt in E. constructor; [exact IH |].
      rewrite insert_desc_perm. constructor; [lia | exact Hx].
Qed.

Lemma order_by_created_at_desc_sorted (l : list Task) :
  StronglySorted (fun a b => CreatedAt b ≤ CreatedAt a) (order_by_created_at_desc l).
Proof.
  induction l as [| x l IH]; simpl; [constructor | now apply insert_desc_sorted].
Qed.

End Ordering.

(** X6: on a working connection, [GetUserTasks] returns the rows of the
    given user and no others, each as often as the table has it, and
    [GetAllTasks] returns all rows; both results are ordered by falling
    [created_at]. On a broken connection both return the error and no
    rows. *)
Theorem GetUserTasks_GetAllTasks_sorted (d : DB) (userID : string) :
  (conn_err d = None →
     snd (GetUserTasks d userID) = None ∧
     fst (GetUserTasks d userID) ≡ₚ
       List.filter (fun t => String.eqb (UserID t) userID) (tasks d) ∧
     (∀ t, In t (fst (GetUserTasks d userID)) ↔ In t (tasks d) ∧ UserID t = userID) ∧
     StronglySorted (fun a b => CreatedAt b ≤ CreatedAt a) (fst (GetUserTasks d userID)) ∧
     snd (GetAllTasks d) = None ∧
     fst (GetAllTasks d) ≡ₚ tasks d ∧
     StronglySorted (fun a b => CreatedAt b ≤ CreatedAt a) (fst (GetAllTasks d))) ∧
  (∀ e, conn_err d = Some e →
     GetUserTasks d userID = ([], Some e) ∧ GetAllTasks d = ([], Some e)).
Proof.
  unfold GetUserTasks, GetAllTasks. split.
  - intros ->. simpl.
    split; [reflexivity |]. split; [apply order_by_created_at_desc_perm |].
    split.
    { intros t. rewrite <- !list_elem_of_In, order_by_created_at_desc_perm.
      rewrite !list_elem_of_In, List.filter_In, String.eqb_eq. reflexivity. }
    split; [apply order_by_created_at_desc_sorted |].
    split; [reflexivity |]. split; [apply order_by_created_at_desc_perm |].
    apply order_by_created_at_desc_sorted.
  - intros e ->. split; reflexivity.
Qed.

(** ** The task services and handlers *)




(** X9: [handlers.DeleteTask] on a working connection. A task that is not
    in the table gives 404 with "task not found"; a task of another user
    gives a caller who is not admin 403 and stays in the table; the owner
    and an admin get 200, the task is gone afterwards and every other task
    is found as before. A request without claims gets 401 and changes
    nothing. *)
Theorem handlers_DeleteTask_outcomes (d : DB) (c : middleware.Claims)
    (taskID : string) :
  conn_err d = None →
  let r := handlers.DeleteTask (Some c) taskID d in
  (GetTaskByID d taskID = (None, Some "task not found") →
     r = (d, (404, handlers.ErrorResponse "task not found"))) ∧
  (∀ old, GetTaskByID d taskID = (Some old, None) →
     (middleware.Role c ≠ "admin" → UserID old ≠ middleware.UserID c →
        r = (d, (403, handlers.ErrorResponse "unauthorized to delete this task"))) ∧
     (middleware.Role c = "admin" ∨ UserID old = middleware.UserID c →
        snd r = (200, handlers.MessageBody "Task deleted successfully") ∧
        GetTaskByID (fst r) taskID = (None, Some "task not found") ∧
        (∀ id', id' ≠ taskID → GetTaskByID (fst r) id' = GetTaskByID d id'))) ∧
  handlers.DeleteTask None taskID d = (d, (401, handlers.ErrorResponse "Unauthorized")).
Proof.
  intros Hconn r. subst r. unfold handlers.DeleteTask, services.DeleteTask.
  split; [| split; [| reflexivity]].
  - intros ->. reflexivity.
  - intros old ->. split.
    + intros Hrole Howner.
      destruct (String.eqb_spec (middleware.Role c) "admin"); [contradiction |].
      destruct (String.eqb_spec (UserID old) (middleware.UserID c));
        [contradiction | reflexivity].
    + intros Hauth.
      replace (negb (String.eqb (middleware.Role c) "admin")
               && negb (String.eqb (UserID old) (middleware.UserID c))) with false.
      2:{ destruct Hauth as [-> | ->]; [reflexivity |].
          rewrite String.eqb_refl. now rewrite andb_false_r. }
      unfold DeleteTask. rewrite Hconn. simpl.
      split; [reflexivity |]. unfold GetTaskByID. simpl. rewrite Hconn. split.
      * rewrite find_id_absent; [reflexivity |].
        intros x Hx Hid. apply List.filter_In in Hx as [_ Hx].
        apply String.eqb_eq in Hid. rewrite Hid in Hx. discriminate.
      * intros id' Hne. now rewrite find_id_filter_other.
Qed.

Lemma handlers_DeleteTask_outcomes_witness :
  handlers.DeleteTask (Some (middleware.mkClaims "u2" "" "" "user")) "t1" db1
  = (db1, (403, handlers.ErrorResponse "unauthorized to delete this task")).
Proof.
  refine (proj1 (proj1 (proj2 (handlers_DeleteTask_outcomes db1
            (middleware.mkClaims "u2" "" "" "user") "t1" eq_refl)) task1 eq_refl) _ _);
    discriminate.
Defined.

(** X10: [handlers.GetTask] never answers 403. The service clears the owner
    of the task before the handler compares it with the caller, so the
    comparison never fires: every caller with claims gets 200 and the task,
    without its owner, for every task that [GetTaskByID] finds, whoever
    owns it; every failed lookup gives 404. *)
Theorem handlers_GetTask_never_forbidden (claims : option middleware.Claims)
    (c : middleware.Claims) (taskID : string) (d : DB) :
  fst (handlers.GetTask claims taskID d) ≠ 403 ∧
  (∀ t, GetTaskByID d taskID = (Some t, None) →
        handlers.GetTask (Some c) taskID d =
          (200, handlers.TaskBody (services.hide_owner t))) ∧
  (∀ e, snd (GetTaskByID d taskID) = Some e →
        handlers.GetTask (Some c) taskID d =
          (404, handlers.ErrorResponse "Task not found")).
Proof.
  assert (Hc : ∀ c', fst (handlers.GetTask (Some c') taskID d) ≠ 403 ∧
     (∀ t, GetTaskByID d taskID = (Some t, None) →
        handlers.GetTask (Some c') taskID d =
          (200, handlers.TaskBody (services.hide_owner t))) ∧
     (∀ e, snd (GetTaskByID d taskID) = Some e →
        handlers.GetTask (Some c') taskID d =
          (404, handlers.ErrorResponse "Task not found"))).
  { intros c'. unfold handlers.GetTask, services.GetTask.
    destruct (GetTaskByID d taskID) as [[t |] [e |]]; simpl;
      rewrite ?andb_false_r; repeat split; try discriminate;
      intros x [= <-] || intros x [=]; reflexivity. }
  split; [| apply Hc].
  destruct claims as [c' |]; [apply Hc | simpl; discriminate].
Qed.

(** X11: [handlers.GetTasks] on a working connection answers 200 with
    tasks ordered by falling [created_at] and stripped of their owner: for
    an admin they are all rows of the table, for every other caller
    exactly the rows the caller owns. On a broken connection the answer is
    500. *)
Theorem handlers_GetTasks_visibility (d : DB) (c : middleware.Claims) :
  (conn_err d = None →
   ∃ rows,
     handlers.GetTasks (Some c) d =
       (200, handlers.TasksBody (List.map services.hide_owner rows)) ∧
     StronglySorted (fun a b => CreatedAt b ≤ CreatedAt a) rows ∧
     (middleware.Role c = "admin" → rows ≡ₚ tasks d) ∧
     (middleware.Role c ≠ "admin" →
        rows ≡ₚ List.filter (fun t => String.eqb (UserID t) (middleware.UserID c))
                            (tasks d))) ∧
  (conn_err d ≠ None →
   handlers.GetTasks (Some c) d =
     (500, handlers.ErrorResponse "Error retrieving tasks")).
Proof.
  unfold handlers.GetTasks, services.GetAllTasks, services.GetUserTasks,
    GetAllTasks, GetUserTasks.
  split.
  - intros ->.
    destruct (String.eqb_spec (middleware.Role c) "admin") as [Hadmin | Huser].
    + eexists. split; [reflexivity |].
      split; [apply order_by_created_at_desc_sorted |].
      split; [intros _; apply order_by_created_at_desc_perm | contradiction].
    + eexists. split; [reflexivity |].
      split; [apply order_by_created_at_desc_sorted |].
      split; [contradiction | intros _; apply order_by_created_at_desc_perm].
  - destruct (conn_err d); [| contradiction]. intros _.
    destruct (String.eqb (middleware.Role c) "admin"); reflexivity.
Qed.

(** ** The authorization header *)

Section Header.

Lemma split_space_no_space (s : string) :
  no_space s = true → middleware.split_space s = [s].
Proof.
  induction s as [| c s IH]; simpl; [reflexivity |].
  destruct (Ascii.eqb c " "); simpl; [discriminate |].
  intros H. now rewrite (IH H).
Qed.

Lemma split_space_app (a b : string) :
  no_space a = true →
  middleware.split_space (a ++ String " " b) = a :: middleware.split_space b.
Proof.
  induction a as [| c a IH]; simpl; [reflexivity |].
  destruct (Ascii.eqb c " "); simpl; [discriminate |].
  intros H. now rewrite (IH H).
Qed.

Lemma split_space_nonempty (s : string) : middleware.split_space s ≠ [].
Proof.
  destruct s as [| c s]; simpl; [discriminate |].
  destruct (Ascii.eqb c " "); [discriminate |].
  destruct (middleware.split_space s); discriminate.
Qed.

Lemma split_space_inv (s p : string) (ps : list string) :
  middleware.split_space s = p :: ps →
  no_space p = true ∧
  ((ps = [] ∧ s = p) ∨
   ∃ rest, s = p ++ String " " rest ∧ middleware.split_space rest = ps).
Proof.
  revert p ps. induction s as [| c s IH]; simpl; intros p ps H.
  - injection H as <- <-. auto.
  - destruct (Ascii.eqb_spec c " ") as [-> | Hc].
    + injection H as <- <-. split; [reflexivity |]. right. eauto.
    + destruct (middleware.split_space s) as [| q qs] eqn:E.
      * destruct (split_space_nonempty s E).
      * injection H as <- <-. destruct (IH q qs eq_refl) as [Hq Hs]. split.
        -- simpl. destruct (Ascii.eqb_spec c " "); [contradiction | exact Hq].
        -- destruct Hs as [[-> ->] | (rest & -> & Hrest)]; [now left |].
           right. exists rest. auto.
Qed.

End Header.

(** X12: [AuthMiddleware] hands a request on exactly when its
    Authorization header is "Bearer", one space, and a token without a
    space that [ValidateToken] accepts; the claims handed on are those of
    the token. Every other request is answered with 401: a missing header,
    a scheme written differently, a second space anywhere, a token that
    does not validate. *)
Theorem AuthMiddleware_accepts (ValidateToken : string → option middleware.Claims)
    (authHeader : string) (c : middleware.Claims) :
  (middleware.AuthMiddleware ValidateToken authHeader = middleware.Next c ↔
   ∃ token, authHeader = "Bearer " ++ token ∧ no_space token = true ∧
            ValidateToken token = Some c) ∧
  (∀ status message,
     middleware.AuthMiddleware ValidateToken authHeader =
       middleware.Reject status message → status = 401) ∧
  middleware.AuthMiddleware ValidateToken "" =
    middleware.Reject 401 "Missing authorization header".
Proof.
  split; [| split; [| reflexivity]].
  - unfold middleware.AuthMiddleware. split.
    + destruct (String.eqb authHeader ""); [discriminate |].
      destruct (middleware.split_space authHeader) as [| p ps] eqn:E;
        [discriminate |].
      destruct ps as [| q [| x xs]]; simpl; try discriminate.
      destruct (String.eqb_spec p middleware.BearerScheme) as [-> | Hp];
        simpl; [| discriminate].
      destruct (ValidateToken q) as [c' |] eqn:V; [| discriminate].
      intros [= <-].
      destruct (split_space_inv _ _ _ E) as [_ [[H _] | (rest & -> & Hrest)]];
        [discriminate |].
      destruct (split_space_inv _ _ _ Hrest) as [Hq [[_ ->] | (r & _ & Hr)]].
      * exists q. auto.
      * destruct (split_space_nonempty r Hr).
    + intros (token & -> & Hns & V).
      change ("Bearer " ++ token)
        with (middleware.BearerScheme ++ String " " token).
      rewrite split_space_app by reflexivity.
      rewrite (split_space_no_space token Hns). simpl. now rewrite V.
  - intros status message. unfold middleware.AuthMiddleware.
    destruct (String.eqb authHeader ""); [now intros [= <- _] |].
    destruct (_ || _); [now intros [= <- _] |].
    destruct (ValidateToken _); [discriminate | now intros [= <- _]].
Qed.

(** ** Reading integers and the environment *)

Section Integers.

Lemma digit_range (c : ascii) (d : Z) : strconv.digit c = Some d → 0 ≤ d ≤ 9.
Proof.
  unfold strconv.digit.
  destruct ((48 <=? strconv.byte_of c) && (strconv.byte_of c <=? 57)) eqn:E;
    [| discriminate].
  intros [= <-]. apply andb_true_iff in E as [H1 H2].
  apply Z.leb_le in H1, H2. lia.
Qed.

Lemma pow10_length_cons (c : ascii) (s : string) :
  10 ^ Z.of_nat (String.length (String c s)) = 10 * 10 ^ Z.of_nat (String.length s).
Proof.
  simpl String.length. rewrite Nat2Z.inj_succ. apply Z.pow_succ_r. lia.
Qed.

Lemma fast_digits_bound (s : string) (n m : Z) :
  strconv.fast_digits s n = Some m → 0 ≤ n →
  0 ≤ m < (n + 1) * 10 ^ Z.of_nat (String.length s).
Proof.
  revert n. induction s as [| c s IH]; intros n H Hn.
  - simpl in H. injection H as <-. simpl. lia.
  - simpl in H. destruct (strconv.digit c) as [d |] eqn:D; [| discriminate].
    apply digit_range in D. apply IH in H; [| lia].
    rewrite pow10_length_cons.
    assert (0 < 10 ^ Z.of_nat (String.length s)) by (apply Z.pow_pos_nonneg; lia).
    nia.
Qed.

Lemma parse_digits_nonneg (s : string) (n : Z) :
  0 ≤ n → 0 ≤ fst (strconv.parse_digits s n).
Proof.
  revert n. induction s as [| c s IH]; intros n Hn; simpl; [exact Hn |].
  destruct (strconv.digit c) as [d |] eqn:D; simpl; [| lia].
  apply digit_range in D.
  destruct (_ <=? n); simpl; [vm_compute; discriminate |].
  destruct (_ <? _); simpl; [vm_compute; discriminate |].
  apply IH. lia.
Qed.

(** Below 10^18 the loop of [ParseUint] never overflows and computes what
    the fast path computes. *)
Lemma parse_digits_fast (s : string) (n : Z) :
  0 ≤ n → (n + 1) * 10 ^ Z.of_nat (String.length s) ≤ 10 ^ 18 →
  strconv.parse_digits s n =
    match strconv.fast_digits s n with
    | Some m => (m, None)
    | None => (0, Some strconv.ErrSyntax)
    end.
Proof.
  revert n. induction s as [| c s IH]; intros n Hn Hb; simpl; [reflexivity |].
  destruct (strconv.digit c) as [d |] eqn:D; [| reflexivity].
  apply digit_range in D. rewrite pow10_length_cons in Hb.
  assert (Hp : 0 < 10 ^ Z.of_nat (String.length s)) by (apply Z.pow_pos_nonneg; lia).
  assert (Hn1 : (n * 10 + d + 1) * 10 ^ Z.of_nat (String.length s) ≤ 10 ^ 18) by nia.
  assert (Hsmall : n * 10 + d + 1 ≤ 10 ^ 18) by nia.
  change (10 ^ 18) with 1000000000000000000 in Hsmall.
  assert (E1 : (strconv.maxUint64 / 10 + 1 <=? n) = false).
  { apply Z.leb_gt. change (strconv.maxUint64 / 10 + 1) with 1844674407370955162. lia. }
  assert (E2 : (strconv.maxUint64 <? n * 10 + d) = false).
  { apply Z.ltb_ge. change strconv.maxUint64 with 18446744073709551615. lia. }
  rewrite E1. cbv zeta. rewrite E2. apply IH; [lia | exact Hn1].
Qed.

Lemma Atoi_cases (s : string) :
  strconv.ParseInt s = (0, Some strconv.ErrSyntax) ∨
  strconv.ParseInt s = (2 ^ 63 - 1, Some strconv.ErrRange) ∨
  strconv.ParseInt s = (- 2 ^ 63, Some strconv.ErrRange) ∨
  (snd (strconv.ParseInt s) = None ∧
   - 2 ^ 63 ≤ fst (strconv.ParseInt s) ≤ 2 ^ 63 - 1).
Proof.
  unfold strconv.ParseInt. destruct s as [| c rest]; [now left |].
  set (neg := Ascii.eqb c "-").
  set (body := if Ascii.eqb c "+" || neg then rest else String c rest).
  assert (Hun : 0 ≤ fst (strconv.ParseUint body)).
  { unfold strconv.ParseUint. destruct body; [simpl; lia |].
    apply parse_digits_nonneg. lia. }
  destruct (strconv.ParseUint body) as [un [[] |]]; simpl in Hun; [now left | |].
  - destruct (negb neg && (2 ^ 63 <=? un)) eqn:E1; [now right; left |].
    destruct (neg && (2 ^ 63 <? un)) eqn:E2; [now right; right; left |].
    right; right; right. simpl. split; [reflexivity |].
    destruct neg; simpl in *.
    + apply Z.ltb_ge in E2. lia.
    + apply Z.leb_gt in E1. lia.
  - destruct (negb neg && (2 ^ 63 <=? un)) eqn:E1; [now right; left |].
    destruct (neg && (2 ^ 63 <? un)) eqn:E2; [now right; right; left |].
    right; right; right. simpl. split; [reflexivity |].
    destruct neg; simpl in *.
    + apply Z.ltb_ge in E2. lia.
    + apply Z.leb_gt in E1. lia.
Qed.

End Integers.

(** The fast path of [Atoi] for inputs of fewer than 19 bytes agrees
    with the general path: for every string, [Atoi] returns the value and
    the error that [ParseInt] returns. *)
Lemma Atoi_fast_path_agrees (s : string) : strconv.Atoi s = strconv.ParseInt s.
Proof.
  unfold strconv.Atoi.
  destruct ((0 <? String.length s)%nat && (String.length s <? 19)%nat) eqn:Hlen;
    [| reflexivity].
  apply andb_true_iff in Hlen as [_ Hlen]. apply Nat.ltb_lt in Hlen.
  destruct s as [| c rest]; [reflexivity |].
  unfold strconv.ParseInt. simpl String.length in Hlen.
  assert (Hpow : ∀ body, (String.length body ≤ 18)%nat →
            (0 + 1) * 10 ^ Z.of_nat (String.length body) ≤ 10 ^ 18).
  { intros body Hb. rewrite Z.mul_1_l. apply Z.pow_le_mono_r; lia. }
  assert (Hfit : ∀ body m, (String.length body ≤ 18)%nat →
            strconv.fast_digits body 0 = Some m → 0 ≤ m < 2 ^ 63).
  { intros body m Hb Hm. apply fast_digits_bound in Hm; [| lia].
    specialize (Hpow body Hb). change (2 ^ 63) with 9223372036854775808.
    change (10 ^ 18) with 1000000000000000000 in Hpow. lia. }
  destruct (Ascii.eqb c "-") eqn:Hneg; simpl.
  - (* a minus sign *)
    rewrite orb_true_r.
    destruct rest as [| c' rest']; [reflexivity |].
    change ((String.length (String c' rest') <? 1)%nat) with false. cbv iota.
    unfold strconv.ParseUint.
    rewrite parse_digits_fast by (try apply Hpow; simpl in *; lia).
    destruct (strconv.fast_digits (String c' rest') 0) as [m |] eqn:F; [| reflexivity].
    apply Hfit in F; [| simpl in *; lia].
    replace (2 ^ 63 <? m) with false by (symmetry; apply Z.ltb_ge; lia).
    reflexivity.
  - destruct (Ascii.eqb c "+") eqn:Hpos; cbn [orb andb negb].
    + (* a plus sign *)
      destruct rest as [| c' rest']; [reflexivity |].
      change ((String.length (String c' rest') <? 1)%nat) with false. cbv iota.
      unfold strconv.ParseUint.
      rewrite parse_digits_fast by (try apply Hpow; simpl in *; lia).
      destruct (strconv.fast_digits (String c' rest') 0) as [m |] eqn:F; [| reflexivity].
      apply Hfit in F; [| simpl in *; lia].
      replace (2 ^ 63 <=? m) with false by (symmetry; apply Z.leb_gt; lia).
      reflexivity.
    + (* no sign *)
      unfold strconv.ParseUint. cbv iota.
      rewrite parse_digits_fast by (try apply Hpow; simpl in *; lia).
      destruct (strconv.fast_digits (String c rest) 0) as [m |] eqn:F; [| reflexivity].
      apply Hfit in F; [| simpl in *; lia].
      replace (2 ^ 63 <=? m) with false by (symmetry; apply Z.leb_gt; lia).
      reflexivity.
Qed.

(** X13: whatever the string, [Atoi] returns a value of the 64-bit range;
    when it reports a syntax error the value is 0, when it reports a range
    error the value is the largest or the smallest 64-bit integer. So
    [getEnvInt] returns a 64-bit integer whenever its default is one. *)
Theorem Atoi_range (s : string) :
  - 2 ^ 63 ≤ fst (strconv.Atoi s) ≤ 2 ^ 63 - 1 ∧
  (snd (strconv.Atoi s) = Some strconv.ErrSyntax → fst (strconv.Atoi s) = 0) ∧
  (snd (strconv.Atoi s) = Some strconv.ErrRange →
     fst (strconv.Atoi s) = 2 ^ 63 - 1 ∨ fst (strconv.Atoi s) = - 2 ^ 63) ∧
  (∀ env key d, - 2 ^ 63 ≤ d ≤ 2 ^ 63 - 1 →
     - 2 ^ 63 ≤ getEnvInt env key d ≤ 2 ^ 63 - 1).
Proof.
  assert (Hall : ∀ x, - 2 ^ 63 ≤ fst (strconv.Atoi x) ≤ 2 ^ 63 - 1 ∧
    (snd (strconv.Atoi x) = Some strconv.ErrSyntax → fst (strconv.Atoi x) = 0) ∧
    (snd (strconv.Atoi x) = Some strconv.ErrRange →
       fst (strconv.Atoi x) = 2 ^ 63 - 1 ∨ fst (strconv.Atoi x) = - 2 ^ 63)).
  { intros x. unfold strconv.Atoi.
    destruct ((0 <? String.length x)%nat && (String.length x <? 19)%nat) eqn:Hlen.
    - apply andb_true_iff in Hlen as [_ Hlen]. apply Nat.ltb_lt in Hlen.
      destruct x as [| c rest]; [simpl; repeat split; (lia || discriminate) |].
      set (body := if Ascii.eqb c "-" || Ascii.eqb c "+" then rest else String c rest).
      assert (Hbody : (String.length body ≤ 18)%nat).
      { subst body. simpl in Hlen.
        destruct (Ascii.eqb c "-" || Ascii.eqb c "+"); simpl; lia. }
      destruct (_ && (String.length body <? 1)%nat);
        [simpl; repeat split; (lia || discriminate) |].
      destruct (strconv.fast_digits body 0) as [n |] eqn:F;
        [| simpl; repeat split; (lia || discriminate)].
      apply fast_digits_bound in F; [| lia].
      assert (Hp : 10 ^ Z.of_nat (String.length body) ≤ 10 ^ 18)
        by (apply Z.pow_le_mono_r; lia).
      change (10 ^ 18) with 1000000000000000000 in Hp.
      simpl fst; simpl snd. change (2 ^ 63) with 9223372036854775808.
      split; [destruct (Ascii.eqb c "-"); lia |]. split; discriminate.
    - destruct (Atoi_cases x) as [H | [H | [H | [H1 H2]]]];
        rewrite ?H, ?H1; simpl; repeat split;
        try discriminate; try lia; auto. }
  split; [apply Hall |]. split; [apply Hall |]. split; [apply Hall |].
  intros env key d Hd. unfold getEnvInt.
  destruct (String.eqb (Getenv env key) ""); [exact Hd | apply Hall].
Qed.

Section Environment.

Lemma getEnv_nonempty (env : gmap string string) (key d : string) :
  d ≠ "" → getEnv env key d ≠ "".
Proof.
  intros Hd. unfold getEnv.
  destruct (String.eqb_spec (Getenv env key) ""); assumption.
Qed.

Lemma Getenv_empty_unset (env : gmap string string) (k key : string) :
  Getenv (<[k := ""]> env) key = Getenv (delete k env) key.
Proof.
  unfold Getenv. destruct (decide (k = key)) as [-> | Hne].
  - now rewrite lookup_insert_eq, lookup_delete_eq.
  - now rewrite lookup_insert_ne, lookup_delete_ne.
Qed.

End Environment.

(** X14: for [LoadConfig] a variable set to the empty string is a variable
    that is not set: both give the same configuration. So no string field
    of the configuration is ever empty (an empty database password, for
    one, cannot be configured), and a configuration loaded from an
    environment that sets none of the nine variables is the one of the
    defaults. *)
Theorem LoadConfig_empty_is_unset (env : gmap string string) (k : string) :
  LoadConfig (<[k := ""]> env) = LoadConfig (delete k env) ∧
  (DBHost (LoadConfig env) ≠ "" ∧ DBPort (LoadConfig env) ≠ "" ∧
   DBUser (LoadConfig env) ≠ "" ∧ DBPassword (LoadConfig env) ≠ "" ∧
   DBName (LoadConfig env) ≠ "" ∧ JWTSecret (LoadConfig env) ≠ "" ∧
   ServerPort (LoadConfig env) ≠ "") ∧
  ((∀ key, key ∈ ["DB_HOST"; "DB_PORT"; "DB_USER"; "DB_PASSWORD"; "DB_NAME";
                  "JWT_SECRET"; "JWT_EXPIRY_HOURS"; "AUTO_COMPLETE_MINUTES";
                  "SERVER_PORT"] → env !! key = None) →
   LoadConfig env =
     mkConfig "localhost" "5432" "postgres" "postgres" "taskdb" "secret-key"
              24 30 "8081").
Proof.
  split; [| split].
  - unfold LoadConfig, getEnv, getEnvInt. now rewrite !Getenv_empty_unset.
  - unfold LoadConfig. simpl. repeat split; now apply getEnv_nonempty.
  - intros Hunset. unfold LoadConfig, getEnv, getEnvInt, Getenv.
    rewrite !Hunset; [reflexivity | ..]; apply list_elem_of_In; simpl; tauto.
Qed.


(** ** The queue *)

Section Queue.

Lemma enqueued_snoc (ls : list LogLine) (l : LogLine) :
  enqueued (ls ++ [l]) = (enqueued ls ++ enqueued [l])%list.
Proof. unfold enqueued. apply flat_map_app. Qed.

Lemma fetched_snoc (cs : list store_call) (c : store_call) :
  fetched (cs ++ [c]) = (fetched cs ++ fetched [c])%list.
Proof. unfold fetched. apply flat_map_app. Qed.

Lemma autoCompleteTask_fetch_not_enqueued (d : DB) (taskID : string) (l : LogLine) :
  autoCompleteTask_fetch d taskID = FetchSkip l → enqueued [l] = [].
Proof.
  unfold autoCompleteTask_fetch.
  destruct (GetTaskByID d taskID) as [[t |] [e |]];
    try destruct (String.eqb (Status t) "completed");
    intros [= <-] || discriminate; reflexivity.
Qed.

Lemma autoCompleteTask_update_not_enqueued (d d' : DB) (now : Z) (taskID : string)
    (l : LogLine) :
  autoCompleteTask_update d now taskID = (d', l) → enqueued [l] = [].
Proof.
  unfold autoCompleteTask_update.
  destruct (AutoCompleteTask d now taskID) as [d0 [e |]];
    intros [= _ <-]; reflexivity.
Qed.

Lemma queue_inv_step (l : label) (s s' : State) :
  queue_inv s → step l s = Some s' → queue_inv s'.
Proof.
  intros (HL & HQ & HB & HP) Hstep.
  split; [exact (lifecycle_inv_step l s s' HL Hstep) |].
  destruct HL as (_ & _ & Hclosed & Hret).
  destruct s as [[d cf q closed stop n marks] t tick next sc pr st subs rets lg cl pan].
  simpl in *.
  step_cases Hstep; simpl in *; subst.
  all: rewrite ?enqueued_snoc, ?fetched_snoc; simpl; rewrite ?app_nil_r.
  all: try (repeat split; (assumption || discriminate)).
  all: repeat match goal with
         | H : fires _ _ _ _ = true |- _ =>
             apply fires_spec in H as [_ H]; unfold ready in H; simpl in H;
             rename H into Hfire
         | H : autoCompleteTask_fetch _ _ = FetchSkip _ |- _ =>
             apply autoCompleteTask_fetch_not_enqueued in H; simpl in H;
             rewrite app_nil_r in H; rewrite H; clear H
         | H : autoCompleteTask_update _ _ _ = _ |- _ =>
             apply autoCompleteTask_update_not_enqueued in H; simpl in H;
             rewrite app_nil_r in H; rewrite H; clear H
         | H : autoCompleteTask_fetch ?d ?i = FetchPanic |- _ =>
             pose proof (autoCompleteTask_fetch_cases d i) as Hno;
             rewrite H in Hno; destruct Hno
         end.
  all: rewrite ?app_nil_r.
  all: try (repeat split; (assumption || discriminate)).
  all: try (destruct q as [| x q];
            [simpl in Hfire; destruct closed; [| discriminate];
             destruct (Hret (proj1 Hclosed eq_refl)) as [_ Hdone]; discriminate |];
            simpl; rewrite HQ, <- app_assoc; simpl in *;
            repeat split; (lia || discriminate || reflexivity)).
  all: try (repeat split; auto; intros _; now apply Hclosed).
  all: rewrite orb_false_r in Hfire; apply Nat.ltb_lt in Hfire;
    rewrite HQ, app_assoc, length_app; simpl; unfold taskChannelCap in *;
    repeat split; (lia || discriminate).
Qed.

Lemma queue_inv_initial (d : DB) (c : Config) (now0 : Z) :
  queue_inv (initial d c now0).
Proof.
  split; [apply lifecycle_inv_initial |]. simpl. unfold taskChannelCap.
  repeat split; (lia || discriminate).
Qed.

Lemma queue_inv_reachable (d : DB) (c : Config) (now0 : Z) (s : State) :
  reachable (initial d c now0) s → queue_inv s.
Proof.
  apply reachable_ind; [apply queue_inv_initial |].
  intros l x x'. apply queue_inv_step.
Qed.

End Queue.

(** X15: in every state the worker reaches, the queue holds at most 100
    identifiers. *)
Theorem taskChannel_bounded (d : DB) (c : Config) (now0 : Z) (s : State) :
  reachable (initial d c now0) s →
  (List.length (taskChannel (w s)) ≤ 100)%nat.
Proof.
  intros Hreach. apply (queue_inv_reachable d c now0 s Hreach).
Qed.

Lemma taskChannel_bounded_witness :
  (List.length (taskChannel (w saturated)) ≤ 100)%nat.
Proof.
  apply (taskChannel_bounded db1 cfg1 0 saturated).
  exists saturating_run. vm_compute. reflexivity.
Defined.






(** ** A scan and its completions *)

Section Drain.

Lemma closed_first_AutoCompleteTask (d : DB) (now : Z) (taskID id : string) :
  closed_first id d → closed_first id (fst (AutoCompleteTask d now taskID)).
Proof.
  intros (r & Hfind & Hclosed). unfold closed_first.
  rewrite AutoCompleteTask_tasks. destruct (conn_err d); [eauto |].
  rewrite (find_id_map _ _ _ (complete_row_id now taskID)), Hfind. simpl.
  exists r. rewrite (complete_row_closed now taskID r Hclosed). auto.
Qed.

Lemma found_AutoCompleteTask (d : DB) (now : Z) (taskID id : string) :
  List.find (fun t => String.eqb (ID t) id) (tasks d) ≠ None →
  List.find (fun t => String.eqb (ID t) id)
            (tasks (fst (AutoCompleteTask d now taskID))) ≠ None.
Proof.
  rewrite AutoCompleteTask_tasks. destruct (conn_err d); [trivial |].
  rewrite (find_id_map _ _ _ (complete_row_id now taskID)).
  destruct (List.find _ (tasks d)); simpl; congruence.
Qed.

Lemma closed_first_completed (d : DB) (now : Z) (taskID : string) :
  conn_err d = None →
  List.find (fun t => String.eqb (ID t) taskID) (tasks d) ≠ None →
  closed_first taskID (fst (AutoCompleteTask d now taskID)).
Proof.
  intros Hconn Hfound. unfold closed_first.
  rewrite AutoCompleteTask_tasks, Hconn.
  rewrite (find_id_map _ _ _ (complete_row_id now taskID)).
  destruct (List.find _ (tasks d)) as [r |] eqn:F; [| congruence].
  apply List.find_some in F as [_ Hid]. apply String.eqb_eq in Hid.
  exists (complete_row now taskID r). split; [reflexivity |].
  now apply complete_row_not_open.
Qed.

(** The scanner takes one task from its loop; if it queues the task, the
    processor handles it at once. *)
Lemma scanning_step (t : Task) (ts : list Task) (s : State) :
  scanning (t :: ts) s →
  List.find (fun r => String.eqb (ID r) (ID t)) (tasks (db (w s))) ≠ None →
  (is_Some (processedTasks (w s) !! ID t) → closed_first (ID t) (db (w s))) →
  ∃ ls s',
    run ls s = Some s' ∧ scanning ts s' ∧
    closed_first (ID t) (db (w s')) ∧
    (∀ id, closed_first id (db (w s)) → closed_first id (db (w s'))) ∧
    (∀ id, List.find (fun r => String.eqb (ID r) id) (tasks (db (w s))) ≠ None →
           List.find (fun r => String.eqb (ID r) id) (tasks (db (w s'))) ≠ None) ∧
    (∀ id, is_Some (processedTasks (w s') !! id) →
           is_Some (processedTasks (w s) !! id) ∨ id = ID t).
Proof.
  destruct s as [[d cf q closed stop n marks] tm tick next sc pr st subs rets lg cl pan].
  unfold scanning. simpl. intros (-> & -> & -> & -> & -> & Hconn) Hfound Hmarked.
  destruct (marks !! ID t) as [b |] eqn:Hlook.
  - (* marked: the scanner passes over it *)
    exists [LScanner None]. eexists. split.
    { simpl. unfold step, scanner_step. simpl. rewrite Hlook. reflexivity. }
    simpl. repeat split; auto.
  - (* not marked: mark, send, receive, and update unless it is completed *)
    destruct (autoCompleteTask_fetch d (ID t)) as [l | |] eqn:Hfetch.
    + exists [LScanner None; LScanner (Some (CaseSend (ID t)));
              LProcessor (Some CaseRecv)].
      eexists. split.
      { simpl. unfold step at 1, scanner_step. simpl. rewrite Hlook.
        unfold step at 1, scanner_step. simpl.
        rewrite fires_intro;
          [| apply in_select_findAndQueueTasks; now left | reflexivity].
        simpl. unfold step, processor_step. simpl.
        unfold processor_recv. simpl. rewrite Hfetch. reflexivity. }
      assert (Hclosed : closed_first (ID t) d).
      { pose proof (autoCompleteTask_fetch_cases d (ID t)) as Hc.
        rewrite Hfetch in Hc. unfold GetTaskByID in Hc. rewrite Hconn in Hc.
        destruct (List.find _ (tasks d)) as [r |] eqn:F; [| congruence].
        destruct Hc as [(e & He & _) | (r' & [= <-] & Hs & _)]; [discriminate |].
        exists r. split; [exact F |]. now rewrite Hs. }
      simpl. repeat split; auto.
      intros id. destruct (decide (ID t = id)) as [<- | Hne]; [now right |].
      rewrite lookup_insert_ne by exact Hne. now left.
    + destruct (autoCompleteTask_update d tm (ID t)) as [d' l] eqn:Hupd.
      exists [LScanner None; LScanner (Some (CaseSend (ID t)));
              LProcessor (Some CaseRecv); LProcessor None].
      eexists. split.
      { simpl. unfold step at 1, scanner_step. simpl. rewrite Hlook.
        unfold step at 1, scanner_step. simpl.
        rewrite fires_intro;
          [| apply in_select_findAndQueueTasks; now left | reflexivity].
        simpl. unfold step at 1, processor_step. simpl.
        unfold processor_recv. simpl. rewrite Hfetch.
        unfold step, processor_step. simpl. rewrite Hupd. reflexivity. }
      assert (Hd' : d' = fst (AutoCompleteTask d tm (ID t))).
      { destruct (autoCompleteTask_update_spec d tm (ID t)) as [<- _].
        now rewrite Hupd. }
      simpl. rewrite Hd'.
      split; [repeat split; auto;
              now rewrite (proj1 (AutoCompleteTask_conn d tm (ID t))) |].
      split; [now apply closed_first_completed |].
      split; [intros id; apply closed_first_AutoCompleteTask |].
      split; [intros id; apply found_AutoCompleteTask |].
      intros id. destruct (decide (ID t = id)) as [<- | Hne]; [now right |].
      rewrite lookup_insert_ne by exact Hne. now left.
    + pose proof (autoCompleteTask_fetch_cases d (ID t)) as Hc.
      rewrite Hfetch in Hc. destruct Hc.
Qed.

Lemma scanning_all (ts : list Task) (s : State) :
  scanning ts s →
  (∀ t, In t ts →
        List.find (fun r => String.eqb (ID r) (ID t)) (tasks (db (w s))) ≠ None) →
  (∀ t, In t ts → is_Some (processedTasks (w s) !! ID t) →
        closed_first (ID t) (db (w s))) →
  ∃ ls s',
    run ls s = Some s' ∧ scanning [] s' ∧
    (∀ t, In t ts → closed_first (ID t) (db (w s'))) ∧
    (∀ id, closed_first id (db (w s)) → closed_first id (db (w s'))).
Proof.
  revert s. induction ts as [| t ts IH]; intros s Hs Hfound Hmarked.
  - exists [], s. split; [reflexivity |]. split; [exact Hs |].
    split; [intros t [] | auto].
  - destruct (scanning_step t ts s Hs (Hfound t (or_introl eq_refl))
                (Hmarked t (or_introl eq_refl)))
      as (l1 & s1 & Hrun1 & Hs1 & Hc1 & Hkeep1 & Hfound1 & Hmarks1).
    destruct (IH s1 Hs1) as (l2 & s2 & Hrun2 & Hs2 & Hc2 & Hkeep2).
    + intros t' Ht'. apply Hfound1, Hfound. now right.
    + intros t' Ht' Hm. destruct (Hmarks1 _ Hm) as [Hold | Heq].
      * apply Hkeep1, Hmarked; [now right | exact Hold].
      * now rewrite Heq.
    + exists (l1 ++ l2)%list, s2. rewrite run_app, Hrun1.
      split; [exact Hrun2 |]. split; [exact Hs2 |]. split.
      * intros t' [<- | Ht']; [now apply Hkeep2 | now apply Hc2].
      * intros id Hid. now apply Hkeep2, Hkeep1.
Qed.

End Drain.

(** X18: one tick of the scanner completes every eligible task. From the
    start of the worker on a store that answers and holds valid statuses,
    there is a run, with the tick after [dt] of at least a minute, in which
    the scanner queues its candidates one by one and the processor handles
    each, and after which scanner and processor wait again, the queue is
    empty, and [GetTaskByID] finds every task that was pending or
    in_progress and older than the delay at the time of the tick with
    status completed. *)
Theorem scan_completes_eligible (d : DB) (c : Config) (now0 dt : Z) :
  conn_err d = None →
  valid_store d →
  time.Minute ≤ dt →
  ∃ ls s',
    run ls (initial d c now0) = Some s' ∧
    scanner s' = SSelect ∧ processor s' = PSelect ∧ panicked s' = false ∧
    taskChannel (w s') = [] ∧
    ∀ t, In t (tasks d) →
         eligible (now0 + dt) (AutoCompleteMinutes c) t = true →
         ∃ t', GetTaskByID (db (w s')) (ID t) = (Some t', None) ∧
               Status t' = "completed".
Proof.
  intros Hconn Hvalid Hdt.
  set (ts := List.filter (eligible (now0 + dt) (AutoCompleteMinutes c)) (tasks d)).
  assert (Hpos : time.Minute = 60000000000) by reflexivity.
  (* the tick *)
  assert (Htick : ∃ s0, run [LAdvance dt; LTicker; LScanner (Some CaseTick)]
                            (initial d c now0) = Some s0 ∧
                        scanning ts s0 ∧ db (w s0) = d ∧ processedTasks (w s0) = ∅).
  { eexists. split.
    - simpl. unfold step at 1. simpl.
      replace (0 <? dt) with true by (symmetry; apply Z.ltb_lt; lia).
      unfold step at 1. simpl.
      replace (now0 + time.Minute <=? now0 + dt) with true
        by (symmetry; apply Z.leb_le; lia).
      unfold step, scanner_step. simpl. unfold findAndQueueTasks_query. simpl.
      rewrite (GetTasksForAutoCompletion_ok d (now0 + dt) _ Hconn). reflexivity.
    - unfold scanning. simpl. repeat split; auto. }
  destruct Htick as (s0 & Hrun0 & Hs0 & Hdb0 & Hmarks0).
  (* the loop *)
  destruct (scanning_all ts s0 Hs0) as (l1 & s1 & Hrun1 & Hs1 & Hclosed & _).
  { intros t Ht. rewrite Hdb0. apply List.filter_In in Ht as [Ht _].
    intros Hnone. pose proof (List.find_none _ _ Hnone t Ht) as Hf.
    simpl in Hf. rewrite String.eqb_refl in Hf. discriminate. }
  { intros t _ [b Hb]. rewrite Hmarks0, lookup_empty in Hb. discriminate. }
  destruct Hs1 as (Hpc1 & Hpr1 & Hpanic1 & Hq1 & _ & Hconn1).
  (* back to the select *)
  exists ([LAdvance dt; LTicker; LScanner (Some CaseTick)] ++ l1 ++ [LScanner None])%list.
  exists (set_scanner SSelect s1).
  assert (Hrun : run ([LAdvance dt; LTicker; LScanner (Some CaseTick)] ++ l1
                      ++ [LScanner None]) (initial d c now0)
                 = Some (set_scanner SSelect s1)).
  { rewrite run_app, Hrun0, run_app, Hrun1. simpl.
    unfold step. rewrite Hpanic1. unfold scanner_step. now rewrite Hpc1. }
  split; [exact Hrun |]. simpl. repeat split; auto.
  intros t Ht Hel.
  destruct (Hclosed t) as (r & Hfind & Hnot).
  { apply List.filter_In. auto. }
  exists r. split.
  - unfold GetTaskByID. now rewrite Hconn1, Hfind.
  - assert (Hv : valid_store (db (w s1))).
    { apply (valid_store_reachable d c now0 s1 Hvalid).
      exists ([LAdvance dt; LTicker; LScanner (Some CaseTick)] ++ l1)%list.
      now rewrite run_app, Hrun0. }
    unfold valid_store in Hv. rewrite Forall_forall in Hv.
    apply List.find_some in Hfind as [Hin _].
    apply list_elem_of_In, Hv, is_valid_status_spec in Hin.
    destruct Hin as [Hs | [Hs | Hs]]; [| | exact Hs];
      rewrite Hs in Hnot; discriminate.
Qed.

Lemma scan_completes_eligible_witness :
  ∃ ls s', run ls (initial db1 cfg1 0) = Some s' ∧
           ∃ t', GetTaskByID (db (w s')) "t1" = (Some t', None) ∧
                 Status t' = "completed".
Proof.
  destruct (scan_completes_eligible db1 cfg1 0 (31 * time.Minute))
    as (ls & s' & Hrun & _ & _ & _ & _ & Hall).
  - reflexivity.
  - repeat constructor.
  - vm_compute. discriminate.
  - exists ls, s'. split; [exact Hrun |].
    apply (Hall task1); [now left | reflexivity].
Defined.

(** X19: [SubmitTask] goes round the eligibility delay. For every task of
    the store that is pending or in_progress, whatever its age and
    whatever the configured delay, submitting its identifier to a freshly
    started worker and letting the processor handle it completes the task:
    the call returns nil, and [GetTaskByID] then finds the task completed,
    with [updated_at] at the time of the run and all else as it was. *)
Theorem SubmitTask_bypasses_delay (d : DB) (c : Config) (now0 : Z) (t : Task) :
  GetTaskByID d (ID t) = (Some t, None) →
  status_open (Status t) = true →
  ∃ s',
    run [LSubmit (ID t); LSubmitter 0 (CaseSend (ID t));
         LProcessor (Some CaseRecv); LProcessor None] (initial d c now0) = Some s' ∧
    returns s' = [(ID t, None)] ∧
    GetTaskByID (db (w s')) (ID t) =
      (Some (mkTask (ID t) (UserID t) (Title t) (Description t) "completed"
                    (CreatedAt t) now0), None).
Proof.
  intros Hget Hopen.
  destruct (GetTaskByID_found d (ID t) t Hget) as (Hconn & Hin & _).
  assert (Hfetch : autoCompleteTask_fetch d (ID t) = FetchGo).
  { unfold autoCompleteTask_fetch. rewrite Hget.
    destruct (String.eqb_spec (Status t) "completed") as [Hs | _]; [| reflexivity].
    rewrite Hs in Hopen. discriminate. }
  eexists. split; [| split].
  - simpl. unfold step at 1. simpl. unfold step at 1, SubmitTask_leave. simpl.
    rewrite fires_intro; [| apply in_select_SubmitTask; now left | reflexivity].
    simpl. unfold step at 1, processor_step. simpl.
    unfold processor_recv. simpl. rewrite Hfetch.
    unfold step, processor_step. simpl.
    unfold autoCompleteTask_update, AutoCompleteTask. rewrite Hconn. reflexivity.
  - reflexivity.
  - simpl. unfold GetTaskByID in *. simpl. rewrite Hconn in *.
    rewrite (find_id_map _ _ _ (complete_row_id now0 (ID t))).
    destruct (List.find _ (tasks d)) as [r |]; [| discriminate].
    injection Hget as ->. simpl.
    now rewrite (complete_row_open now0 (ID t) t eq_refl Hopen).
Qed.

Lemma SubmitTask_bypasses_delay_witness :
  ∃ s', run [LSubmit "t1"; LSubmitter 0 (CaseSend "t1");
             LProcessor (Some CaseRecv); LProcessor None]
            (initial db1 (LoadConfig {[ "AUTO_COMPLETE_MINUTES" := "30" ]}) 0) = Some s' ∧
        GetTaskByID (db (w s')) "t1" =
          (Some (mkTask "t1" "u1" "title" "text" "completed" 0 0), None).
Proof.
  destruct (SubmitTask_bypasses_delay db1
              (LoadConfig {[ "AUTO_COMPLETE_MINUTES" := "30" ]}) 0 task1 eq_refl eq_refl)
    as (s' & Hrun & _ & Hget).
  exists s'. split; assumption.
Defined.
